(** * GWInferno: the cosmology module (gwinferno/cosmology.py)

    A shallow embedding of the [Cosmology] class: construction, the
    trapezoidal [extend] loop that grows the (z, Dc, Vc) table, the
    closed-form derivatives and the interpolation queries.

    Numbers.  Python floats are read as real numbers: [+], [*], [/] are
    the exact operations of [R], rounding is not modelled, and neither
    are nan and the infinities a float computation can produce.  The one
    place where the source writes an infinity of its own, the default
    [-jnp.inf] of the four bounds of [extend], is kept through the type
    [ext_real].  What is proved of this model is what the code does in
    exact arithmetic.  Where rounding changes the answer (a strict order
    between stored samples, the number of passes of the loop), the module
    [Double] gives the same class on binary64 numbers, and the code is run
    there on concrete inputs.

    Exceptions are values of [exn]; a function that can raise returns a
    [result].  The [while] loop of [extend] has no bound in the source, so
    its model takes a fuel and answers [OutOfFuel] when the fuel is spent
    before the loop condition turns false. *)

From Stdlib Require Import PrimFloat.
From Stdlib Require Import String.
From Stdlib Require Import Reals Lra Lia Psatz List ZArith Sorted.
From Stdlib Require Import RelationClasses.
Import ListNotations.
Open Scope R_scope.

Set Warnings "-inexact-float".

(** ** Results and exceptions *)

Inductive exn : Type :=
| AssertionError
| ZeroDivisionError
| IndexError
| ValueError.

Inductive result (A : Type) : Type :=
| Ok (a : A)
| Raise (e : exn)
| OutOfFuel.

Arguments Ok {A} a.
Arguments Raise {A} e.
Arguments OutOfFuel {A}.

Definition bind {A B : Type} (m : result A) (k : A -> result B) : result B :=
  match m with
  | Ok a => k a
  | Raise e => Raise e
  | OutOfFuel => OutOfFuel
  end.

Notation "x <- m ;; k" := (bind m (fun x => k))
  (at level 61, m at next level, right associativity).

(** ** Units and constants (lines 11-31 of the source) *)

Definition C_SI : R := 299792458.0.
Definition PC_SI : R := 3.085677581491367e16.
Definition MPC_SI : R := PC_SI * 1e6.
Definition G_SI : R := 6.6743e-11.
Definition MSUN_SI : R := 1.9884099021470415e30.

Definition G_CGS : R := G_SI * 1e3.
Definition C_CGS : R := C_SI * 1e2.
Definition PC_CGS : R := PC_SI * 1e2.
Definition MPC_CGS : R := MPC_SI * 1e2.
Definition MSUN_CGS : R := MSUN_SI * 1e3.

Definition PLANCK_2018_Ho : R := 67.32 / (MPC_SI * 1e-3).
Definition PLANCK_2018_OmegaMatter : R := 0.3158.
Definition PLANCK_2018_OmegaLambda : R := 1.0 - PLANCK_2018_OmegaMatter.
Definition PLANCK_2018_OmegaRadiation : R := 0.0.

Definition DEFAULT_DZ : R := 1e-3.
Definition DEFAULT_MAXZ : R := 2.5.

(** ** The numeric library routines the class calls *)

(** A float that may be an infinity: the type of the bounds of [extend]. *)
Inductive ext_real : Type :=
| NegInf
| Fin (r : R)
| PosInf.

(** [jnp.less(x, b)] for a finite [x]. *)
Definition less (x : R) (b : ext_real) : bool :=
  match b with
  | NegInf => false
  | Fin r => if Rlt_dec x r then true else false
  | PosInf => true
  end.

(** [jnp.where(c, a, b)] with a numeric condition: [c] counts as true when
    it is not zero.  Both [a] and [b] are evaluated by the caller. *)
Definition where_ (c a b : R) : R :=
  if Req_dec_T c 0 then b else a.

(** [x ** y] on floats, where its value is a real number: a positive base,
    or base zero with exponent zero (value 1) or a positive exponent
    (value 0).  A negative base with a fractional exponent is nan for
    numpy scalars, and base zero with a negative exponent raises; the
    values given here for them are not used by any theorem. *)
Definition float_pow (x y : R) : R :=
  if Req_dec_T x 0
  then (if Req_dec_T y 0 then 1 else 0)
  else Rpower x y.

(** [a[-1]] *)
Definition last_item (a : list R) : result R :=
  match a with
  | [] => Raise IndexError
  | x :: tl => Ok (last tl x)
  end.

(** [np.append(a, x)] *)
Definition np_append (a : list R) (x : R) : list R := a ++ [x].

(** Elementwise product-like operations on two arrays. *)
Fixpoint map2 (f : R -> R -> R) (a b : list R) : list R :=
  match a, b with
  | x :: a', y :: b' => f x y :: map2 f a' b'
  | _, _ => []
  end.

(** Modelled from the spec: [jnp.interp] is a routine of the jax library
    and not part of the repository; the three definitions [lin],
    [interp_seg] and [interp] follow section 4.4 of the spec (linear
    interpolation against the table, the boundary value outside of it) and
    the documented behaviour of the routine.

    [lin] is the value on the segment from [(a, fa)] to [(b, fb)]; a
    segment of zero width yields its left value. *)
Definition lin (x a fa b fb : R) : R :=
  if Req_dec_T (b - a) 0 then fa
  else fa + ((x - a) / (b - a)) * (fb - fa).

(** Modelled from the spec: the segment [jnp.interp] evaluates, which is
    the one that ends at the first sample (after the first) that is
    greater than [x], and the last segment when there is none
    (searchsorted on the right side, clipped to [1 .. n-1]). *)
Fixpoint interp_seg (x a fa : R) (xs fs : list R) : R :=
  match xs, fs with
  | b :: xs', fb :: fs' =>
      match xs' with
      | [] => lin x a fa b fb
      | _ :: _ =>
          if Rlt_dec x b then lin x a fa b fb
          else interp_seg x b fb xs' fs'
      end
  | _, _ => fa
  end.

(** Modelled from the spec: [jnp.interp(x, xp, fp)] for a scalar [x], with
    the default [left] and [right]: [fp[0]] below [xp[0]], [fp[-1]] above
    [xp[-1]] (the second test is applied last, as in the library, and wins
    when both hold).  Arrays of different lengths are refused with
    ValueError; an empty array cannot be indexed. *)
Definition interp (x : R) (xp fp : list R) : result R :=
  if negb (Nat.eqb (length xp) (length fp)) then Raise ValueError
  else
    match xp, fp with
    | a :: xs, fa :: fs =>
        let f := interp_seg x a fa xs fs in
        let f := if Rlt_dec x a then fa else f in
        let f := if Rlt_dec (last xs a) x then last fs fa else f in
        Ok f
    | _, _ => Raise IndexError
    end.

(** ** The class *)

Record Cosmology : Type := mkCosmology {
  self_Ho : R;
  self_c_over_Ho : R;
  self_unit_mod : R;
  self_OmegaMatter : R;
  self_OmegaRadiation : R;
  self_OmegaLambda : R;
  self_OmegaKappa : R;
  self_z : list R;
  self_Dc : list R;
  self_Vc : list R
}.

(** [Cosmology.__init__] (lines 40-51).  [C_CGS / Ho] raises
    ZeroDivisionError for a Python float [Ho] equal to zero, before the
    assertion on the curvature is reached. *)
Definition __init__ (Ho omega_matter omega_radiation omega_lambda : R)
    (distance_unit : string) : result Cosmology :=
  if Req_dec_T Ho 0 then Raise ZeroDivisionError
  else
    let c_over_Ho := C_CGS / Ho in
    let unit_mod := if String.eqb distance_unit "mpc" then MPC_CGS else 1.0 in
    let OmegaKappa := 1.0 - (omega_matter + omega_radiation + omega_lambda) in
    if Req_dec_T OmegaKappa 0 then
      Ok (mkCosmology Ho c_over_Ho unit_mod
            omega_matter omega_radiation omega_lambda OmegaKappa
            [0.0] [0.0] [0.0])
    else Raise AssertionError.

(** The property [DL] (lines 53-55): [self.Dc * (1 + self.z)]. *)
Definition DL (self : Cosmology) : list R :=
  map2 (fun d z => d * (1 + z)) (self_Dc self) (self_z self).

(** [z2E] (lines 84-91) *)
Definition z2E (self : Cosmology) (z : R) : R :=
  let one_plus_z := 1.0 + z in
  float_pow
    (self_OmegaLambda self + self_OmegaKappa self * one_plus_z ^ 2
     + self_OmegaMatter self * one_plus_z ^ 3
     + self_OmegaRadiation self * one_plus_z ^ 4)
    0.5.

(** [dDcdz] (lines 93-98) *)
Definition dDcdz (self : Cosmology) (z : R) (mpc : bool) : R :=
  let dDc := self_c_over_Ho self / z2E self z in
  if mpc then dDc / MPC_CGS else dDc.

(** [z2Dc] (lines 114-118) *)
Definition z2Dc (self : Cosmology) (z : R) : result R :=
  interp z (self_z self) (self_Dc self).

(** [dVcdz] (lines 100-105).  The argument [self.z2Dc(z)] of [jnp.where]
    is evaluated whatever [Dc] is. *)
Definition dVcdz (self : Cosmology) (z Dc : R) : result R :=
  tab <- z2Dc self z ;;
  let Dc := where_ Dc Dc tab in
  Ok (4 * PI * Dc ^ 2 * dDcdz self z false).

(** [logdVcdz] (lines 107-112) *)
Definition logdVcdz (self : Cosmology) (z Dc : R) : result R :=
  tab <- z2Dc self z ;;
  let Dc := where_ Dc Dc tab in
  Ok (ln (4 * PI) + 2 * ln Dc + ln (dDcdz self z false)
      - 3.0 * ln (self_unit_mod self)).

(** [DL2z] (lines 120-125) *)
Definition DL2z (self : Cosmology) (dl : R) : result R :=
  let DL_cgs := dl * self_unit_mod self in
  interp DL_cgs (DL self) (self_z self).

(** [z2DL] (lines 127-131) *)
Definition z2DL (self : Cosmology) (z : R) : result R :=
  v <- interp z (self_z self) (DL self) ;;
  Ok (v / self_unit_mod self).

(** ** [extend] (lines 57-82) *)

(** The object together with the local variables of the loop. *)
Record loop_state : Type := mkLoop {
  ls_self : Cosmology;
  ls_z : R;
  ls_DL : R;
  ls_Dc : R;
  ls_Vc : R
}.

(** The arrays are rebound, the parameters stay. *)
Definition set_arrays (self : Cosmology) (z Dc Vc : list R) : Cosmology :=
  mkCosmology (self_Ho self) (self_c_over_Ho self) (self_unit_mod self)
    (self_OmegaMatter self) (self_OmegaRadiation self)
    (self_OmegaLambda self) (self_OmegaKappa self) z Dc Vc.

(** The condition of the [while] (line 68). *)
Definition extend_cond (max_DL max_Dc max_z max_Vc : ext_real)
    (st : loop_state) : bool :=
  less (ls_Dc st) max_Dc || less (ls_DL st) max_DL
  || less (ls_z st) max_z || less (ls_Vc st) max_Vc.

(** One pass through the body of the [while] (lines 69-82).  The sums
    [z + dz], [Dc + ...] and [Vc + ...] are exact here; the source rounds
    them, and [Double.extend_body] is the pass with rounding. *)
Definition extend_body (dz : R) (st : loop_state) : result loop_state :=
  let self := ls_self st in
  let z := ls_z st in
  let Dc := ls_Dc st in
  let Vc := ls_Vc st in
  let dDcdz_ := dDcdz self z false in
  dVcdz_ <- dVcdz self z Dc ;;
  let new_z := z + dz in
  let new_dDcdz := dDcdz self new_z false in
  let new_Dc := Dc + 0.5 * (dDcdz_ + new_dDcdz) * dz in
  new_dVcdz <- dVcdz self new_z new_Dc ;;
  let new_Vc := Vc + 0.5 * (dVcdz_ + new_dVcdz) * dz in
  let new_DL := (1 + new_z) * new_Dc in
  Ok (mkLoop
        (set_arrays self
           (np_append (self_z self) new_z)
           (np_append (self_Dc self) new_Dc)
           (np_append (self_Vc self) new_Vc))
        new_z new_DL new_Dc new_Vc).

Fixpoint extend_loop (fuel : nat) (max_DL max_Dc max_z max_Vc : ext_real)
    (dz : R) (st : loop_state) : result Cosmology :=
  if extend_cond max_DL max_Dc max_z max_Vc st then
    match fuel with
    | O => OutOfFuel
    | S fuel' =>
        st' <- extend_body dz st ;;
        extend_loop fuel' max_DL max_Dc max_z max_Vc dz st'
    end
  else Ok (ls_self st).

(** [extend fuel self max_DL max_Dc max_z max_Vc dz] is the object after
    the call; the fuel bounds the number of passes through the loop, so a
    result [Ok] with fuel [0] is a call that made no pass.  The defaults
    of the source are [NegInf] for the four bounds and [DEFAULT_DZ] for
    [dz]. *)
Definition extend (fuel : nat) (self : Cosmology)
    (max_DL max_Dc max_z max_Vc : ext_real) (dz : R) : result Cosmology :=
  z <- last_item (self_z self) ;;
  Dc <- last_item (self_Dc self) ;;
  Vc <- last_item (self_Vc self) ;;
  let DL_ := Dc * (1 + z) in
  extend_loop fuel max_DL max_Dc max_z max_Vc dz (mkLoop self z DL_ Dc Vc).

(** ** The tables the class produces *)

(** [grown c0 c]: [c] is [c0] after finitely many calls of [extend] that
    returned, each with a positive step. *)
Inductive grown (c0 : Cosmology) : Cosmology -> Prop :=
| grown_start : grown c0 c0
| grown_extend (c c' : Cosmology) (fuel : nat)
    (max_DL max_Dc max_z max_Vc : ext_real) (dz : R) :
    grown c0 c ->
    0 < dz ->
    extend fuel c max_DL max_Dc max_z max_Vc dz = Ok c' ->
    grown c0 c'.

(** Neighbouring entries of an array are related by [P]. *)
Fixpoint chain (P : R -> R -> Prop) (l : list R) : Prop :=
  match l with
  | a :: ((b :: _) as tl) => P a b /\ chain P tl
  | _ => True
  end.

(** The three arrays have one length and are not empty. *)
Definition well_formed (c : Cosmology) : Prop :=
  self_z c <> []
  /\ length (self_z c) = length (self_Dc c)
  /\ length (self_Dc c) = length (self_Vc c).

(** The local variables of the loop are the last entries of the arrays. *)
Definition coherent (st : loop_state) : Prop :=
  last_item (self_z (ls_self st)) = Ok (ls_z st)
  /\ last_item (self_Dc (ls_self st)) = Ok (ls_Dc st)
  /\ last_item (self_Vc (ls_self st)) = Ok (ls_Vc st).

(** What holds of the table whatever the parameters are, as long as the
    steps are positive. *)
Definition table_shape (c : Cosmology) : Prop :=
  well_formed c
  /\ chain Rlt (self_z c)
  /\ hd_error (self_z c) = Some 0
  /\ hd_error (self_Dc c) = Some 0
  /\ hd_error (self_Vc c) = Some 0
  /\ (forall v, last_item (self_z c) = Ok v -> 0 <= v).

(** A physically valid parameter set, as stored in the object. *)
Definition valid_parameters (c : Cosmology) : Prop :=
  0 < self_Ho c
  /\ self_c_over_Ho c = C_CGS / self_Ho c
  /\ 0 <= self_OmegaMatter c
  /\ 0 <= self_OmegaRadiation c
  /\ 0 <= self_OmegaLambda c
  /\ self_OmegaMatter c + self_OmegaRadiation c + self_OmegaLambda c = 1
  /\ self_OmegaKappa c = 0
  /\ 0 < self_unit_mod c.

(** What holds of the table for valid parameters. *)
Definition table_monotone (c : Cosmology) : Prop :=
  table_shape c
  /\ valid_parameters c
  /\ chain Rlt (self_Dc c)
  /\ chain Rle (self_Vc c)
  /\ (forall v, last_item (self_Dc c) = Ok v -> 0 <= v).

(** The radicand of [z2E]. *)
Definition radicand (c : Cosmology) (z : R) : R :=
  self_OmegaLambda c + self_OmegaKappa c * (1 + z) ^ 2
  + self_OmegaMatter c * (1 + z) ^ 3
  + self_OmegaRadiation c * (1 + z) ^ 4.

(** The invariants of the loop of [extend]. *)
Definition shape_invariant (st : loop_state) : Prop :=
  coherent st /\ table_shape (ls_self st).

Definition monotone_invariant (st : loop_state) : Prop :=
  coherent st /\ table_monotone (ls_self st).


(** The object [__init__] returns for parameters it accepts. *)
Definition flat_model (Ho Om Or OL : R) (u : string) : Cosmology :=
  mkCosmology Ho (C_CGS / Ho)
    (if String.eqb u "mpc" then MPC_CGS else 1.0)
    Om Or OL (1.0 - (Om + Or + OL)) [0.0] [0.0] [0.0].

(** The default cosmology of the module as the constructor returns it,
    before the call of [extend] that follows (lines 136-141). *)
Definition PLANCK_2018_seed : Cosmology :=
  flat_model PLANCK_2018_Ho PLANCK_2018_OmegaMatter
    PLANCK_2018_OmegaRadiation PLANCK_2018_OmegaLambda "mpc".

(** [dDcdz] is the constant [k] (a model with [OmegaLambda = 1]). *)
Definition constant_rate (k : R) (c : Cosmology) : Prop :=
  forall z, dDcdz c z false = k.

(** The bound [b] is met by the value [x], that is, [jnp.less(x, b)] is
    false. *)
Definition met (x : R) (b : ext_real) : Prop :=
  match b with
  | NegInf => True
  | Fin r => r <= x
  | PosInf => False
  end.

(** The order of the bounds: [-inf] below and [+inf] above the reals. *)
Definition bound_le (a b : ext_real) : Prop :=
  match a, b with
  | NegInf, _ => True
  | _, PosInf => True
  | Fin r, Fin r' => r <= r'
  | _, _ => False
  end.

(** Two objects with the same parameters (the arrays may differ). *)
Definition same_parameters (c c' : Cosmology) : Prop :=
  self_Ho c' = self_Ho c
  /\ self_c_over_Ho c' = self_c_over_Ho c
  /\ self_unit_mod c' = self_unit_mod c
  /\ self_OmegaMatter c' = self_OmegaMatter c
  /\ self_OmegaRadiation c' = self_OmegaRadiation c
  /\ self_OmegaLambda c' = self_OmegaLambda c
  /\ self_OmegaKappa c' = self_OmegaKappa c.

(** The redshifts [zl + dz], [zl + 2 dz], ..., [zl + n dz]. *)
Definition grid (zl dz : R) (n : nat) : list R :=
  map (fun k => zl + INR k * dz) (seq 1 n).

(** ** The class on binary64 numbers *)

(** The definitions above add and multiply in [R].  The module [Double]
    is the same code on the binary64 numbers of the machine: the arrays
    [np.array([0.0])] and the Python floats of the source are binary64,
    and section 4.3 of the spec states that all quantities are double
    precision (for the values that pass through jax this is its 64-bit
    mode).  Every [+], [-], [*], [/] rounds to nearest, [z + dz] can be
    [z], and a comparison is the one of IEEE 754.  The names are those of
    the source. *)
Module Double.

Local Open Scope bool_scope.
Local Open Scope float_scope.

Definition C_SI : float := 299792458.0.
Definition PC_SI : float := 3.085677581491367e16.
Definition MPC_SI : float := PC_SI * 1e6.
Definition C_CGS : float := C_SI * 1e2.
Definition MPC_CGS : float := MPC_SI * 1e2.

Definition PLANCK_2018_Ho : float := 67.32 / (MPC_SI * 1e-3).
Definition PLANCK_2018_OmegaMatter : float := 0.3158.
Definition PLANCK_2018_OmegaLambda : float := 1.0 - PLANCK_2018_OmegaMatter.
Definition PLANCK_2018_OmegaRadiation : float := 0.0.

Definition DEFAULT_DZ : float := 1e-3.
Definition DEFAULT_MAXZ : float := 2.5.

(** [jnp.pi] *)
Definition pi : float := 3.141592653589793.

(** [jnp.where(c, a, b)] with a numeric condition. *)
Definition where_ (c a b : float) : float :=
  if c =? 0 then b else a.

(** [a[-1]] *)
Definition last_item (a : list float) : result float :=
  match a with
  | [] => Raise IndexError
  | x :: tl => Ok (last tl x)
  end.

(** [np.append(a, x)] *)
Definition np_append (a : list float) (x : float) : list float := a ++ [x].

Fixpoint map2 (f : float -> float -> float) (a b : list float)
    : list float :=
  match a, b with
  | x :: a', y :: b' => f x y :: map2 f a' b'
  | _, _ => []
  end.

(** Modelled from the spec: [jnp.interp] as in the definitions on [R]
    above, with the guard of the library on the width of a segment: a
    width of at most [epsilon], the spacing of the machine epsilon,
    yields the left value and is not divided by. *)
Definition epsilon : float := 0x1p-104.

Definition lin (x a fa b fb : float) : float :=
  let dx := b - a in
  if PrimFloat.abs dx <=? epsilon then fa
  else fa + ((x - a) / dx) * (fb - fa).

(** Modelled from the spec: the segment that ends at the first sample
    (after the first) that is not at most [x], the last one when there is
    none. *)
Fixpoint interp_seg (x a fa : float) (xs fs : list float) : float :=
  match xs, fs with
  | b :: xs', fb :: fs' =>
      match xs' with
      | [] => lin x a fa b fb
      | _ :: _ =>
          if b <=? x then interp_seg x b fb xs' fs'
          else lin x a fa b fb
      end
  | _, _ => fa
  end.

(** Modelled from the spec: [jnp.interp(x, xp, fp)] for a scalar [x]. *)
Definition interp (x : float) (xp fp : list float) : result float :=
  if negb (Nat.eqb (length xp) (length fp)) then Raise ValueError
  else
    match xp, fp with
    | a :: xs, fa :: fs =>
        let f := interp_seg x a fa xs fs in
        let f := if x <? a then fa else f in
        let f := if last xs a <? x then last fs fa else f in
        Ok f
    | _, _ => Raise IndexError
    end.

Record Cosmology : Type := mkCosmology {
  self_Ho : float;
  self_c_over_Ho : float;
  self_unit_mod : float;
  self_OmegaMatter : float;
  self_OmegaRadiation : float;
  self_OmegaLambda : float;
  self_OmegaKappa : float;
  self_z : list float;
  self_Dc : list float;
  self_Vc : list float
}.

(** [Cosmology.__init__] (lines 40-51); [Ho == 0] holds of both zeros. *)
Definition __init__ (Ho omega_matter omega_radiation omega_lambda : float)
    (distance_unit : string) : result Cosmology :=
  if Ho =? 0 then Raise ZeroDivisionError
  else
    let c_over_Ho := C_CGS / Ho in
    let unit_mod := if String.eqb distance_unit "mpc" then MPC_CGS else 1.0 in
    let OmegaKappa := 1.0 - (omega_matter + omega_radiation + omega_lambda) in
    if OmegaKappa =? 0 then
      Ok (mkCosmology Ho c_over_Ho unit_mod
            omega_matter omega_radiation omega_lambda OmegaKappa
            [0.0] [0.0] [0.0])
    else Raise AssertionError.

(** The property [DL] (lines 53-55) *)
Definition DL (self : Cosmology) : list float :=
  map2 (fun d z => d * (1 + z)) (self_Dc self) (self_z self).

(** [z2E] (lines 84-91).  The integer powers are products and [** 0.5] is
    the square root, both rounded at each operation. *)
Definition z2E (self : Cosmology) (z : float) : float :=
  let one_plus_z := 1.0 + z in
  PrimFloat.sqrt
    (self_OmegaLambda self
     + self_OmegaKappa self * (one_plus_z * one_plus_z)
     + self_OmegaMatter self * (one_plus_z * one_plus_z * one_plus_z)
     + self_OmegaRadiation self
       * (one_plus_z * one_plus_z * one_plus_z * one_plus_z)).

(** [dDcdz] (lines 93-98) *)
Definition dDcdz (self : Cosmology) (z : float) (mpc : bool) : float :=
  let dDc := self_c_over_Ho self / z2E self z in
  if mpc then dDc / MPC_CGS else dDc.

(** [z2Dc] (lines 114-118) *)
Definition z2Dc (self : Cosmology) (z : float) : result float :=
  interp z (self_z self) (self_Dc self).

(** [dVcdz] (lines 100-105) *)
Definition dVcdz (self : Cosmology) (z Dc : float) : result float :=
  tab <- z2Dc self z ;;
  let Dc := where_ Dc Dc tab in
  Ok (4 * pi * (Dc * Dc) * dDcdz self z false).

(** [DL2z] (lines 120-125) *)
Definition DL2z (self : Cosmology) (dl : float) : result float :=
  let DL_cgs := dl * self_unit_mod self in
  interp DL_cgs (DL self) (self_z self).

(** [z2DL] (lines 127-131) *)
Definition z2DL (self : Cosmology) (z : float) : result float :=
  v <- interp z (self_z self) (DL self) ;;
  Ok (v / self_unit_mod self).

(** [extend] (lines 57-82) *)
Record loop_state : Type := mkLoop {
  ls_self : Cosmology;
  ls_z : float;
  ls_DL : float;
  ls_Dc : float;
  ls_Vc : float
}.

Definition set_arrays (self : Cosmology) (z Dc Vc : list float)
    : Cosmology :=
  mkCosmology (self_Ho self) (self_c_over_Ho self) (self_unit_mod self)
    (self_OmegaMatter self) (self_OmegaRadiation self)
    (self_OmegaLambda self) (self_OmegaKappa self) z Dc Vc.

(** The condition of the [while] (line 68); a bound is a float, the
    default is [neg_infinity]. *)
Definition extend_cond (max_DL max_Dc max_z max_Vc : float)
    (st : loop_state) : bool :=
  (ls_Dc st <? max_Dc) || (ls_DL st <? max_DL)
  || (ls_z st <? max_z) || (ls_Vc st <? max_Vc).

Definition extend_body (dz : float) (st : loop_state) : result loop_state :=
  let self := ls_self st in
  let z := ls_z st in
  let Dc := ls_Dc st in
  let Vc := ls_Vc st in
  let dDcdz_ := dDcdz self z false in
  dVcdz_ <- dVcdz self z Dc ;;
  let new_z := z + dz in
  let new_dDcdz := dDcdz self new_z false in
  let new_Dc := Dc + 0.5 * (dDcdz_ + new_dDcdz) * dz in
  new_dVcdz <- dVcdz self new_z new_Dc ;;
  let new_Vc := Vc + 0.5 * (dVcdz_ + new_dVcdz) * dz in
  let new_DL := (1 + new_z) * new_Dc in
  Ok (mkLoop
        (set_arrays self
           (np_append (self_z self) new_z)
           (np_append (self_Dc self) new_Dc)
           (np_append (self_Vc self) new_Vc))
        new_z new_DL new_Dc new_Vc).

Fixpoint extend_loop (fuel : nat) (max_DL max_Dc max_z max_Vc : float)
    (dz : float) (st : loop_state) : result Cosmology :=
  if extend_cond max_DL max_Dc max_z max_Vc st then
    match fuel with
    | O => OutOfFuel
    | S fuel' =>
        st' <- extend_body dz st ;;
        extend_loop fuel' max_DL max_Dc max_z max_Vc dz st'
    end
  else Ok (ls_self st).

Definition extend (fuel : nat) (self : Cosmology)
    (max_DL max_Dc max_z max_Vc : float) (dz : float) : result Cosmology :=
  z <- last_item (self_z self) ;;
  Dc <- last_item (self_Dc self) ;;
  Vc <- last_item (self_Vc self) ;;
  let DL_ := Dc * (1 + z) in
  extend_loop fuel max_DL max_Dc max_z max_Vc dz (mkLoop self z DL_ Dc Vc).

(** Neighbouring entries of an array are in strictly increasing order. *)
Fixpoint increasing (l : list float) : bool :=
  match l with
  | a :: ((b :: _) as tl) => (a <? b) && increasing tl
  | _ => true
  end.


(** The default cosmology of the module (lines 136-144). *)
Definition PLANCK_2018_Cosmology (fuel : nat) : result Cosmology :=
  c0 <- __init__ PLANCK_2018_Ho PLANCK_2018_OmegaMatter
          PLANCK_2018_OmegaRadiation PLANCK_2018_OmegaLambda "mpc" ;;
  extend fuel c0 neg_infinity neg_infinity DEFAULT_MAXZ neg_infinity
    DEFAULT_DZ.

End Double.

(** ** Tactics *)

(** Case analysis on the comparisons of reals a goal branches on. *)
Ltac rdec :=
  repeat match goal with
  | |- context [Rlt_dec ?a ?b] => destruct (Rlt_dec a b); try lra
  | |- context [Req_dec_T ?a ?b] => destruct (Req_dec_T a b); try lra
  | H : context [Rlt_dec ?a ?b] |- _ => destruct (Rlt_dec a b); try lra
  | H : context [Req_dec_T ?a ?b] |- _ => destruct (Req_dec_T a b); try lra
  end.

(** Decide the condition of the loop on explicit numbers. *)
Ltac loop_cond st :=
  unfold extend_cond, less, st; cbn [ls_z ls_DL ls_Dc ls_Vc];
  repeat match goal with
  | |- context [Rlt_dec ?a ?b] => destruct (Rlt_dec a b); try lra
  end; reflexivity.

(** Entry by entry equality of two explicit arrays. *)
Ltac array_eq :=
  cbv [np_append app ls_self set_arrays self_z self_Dc self_Vc flat_model];
  repeat (apply f_equal2; [lra|]); reflexivity.

Lemma bind_Ok {A B : Type} (a : A) (k : A -> result B) :
  bind (Ok a) k = k a.
Proof. reflexivity. Qed.

(** ** Arrays *)

Lemma last_item_app (l : list R) (x : R) :
  last_item (np_append l x) = Ok x.
Proof.
  unfold np_append, last_item.
  destruct l as [|a l]; simpl; [reflexivity|].
  f_equal. apply last_last.
Qed.

Lemma last_item_cons (a : list R) :
  a <> [] -> exists v, last_item a = Ok v.
Proof.
  destruct a as [|x tl]; [congruence|]. intros _. eexists. reflexivity.
Qed.

Lemma last_snoc (l : list R) (x d : R) : last (l ++ [x]) d = x.
Proof. apply last_last. Qed.

Lemma chain_tail (P : R -> R -> Prop) (a : R) (l : list R) :
  chain P (a :: l) -> chain P l.
Proof. destruct l; simpl; tauto. Qed.

Lemma last_skip (a b : R) (l : list R) : last (b :: l) a = last l b.
Proof.
  revert a b. induction l as [|c l IH]; intros a b; [reflexivity|].
  change (last (c :: l) a = last (c :: l) b).
  rewrite (IH a c), (IH b c). reflexivity.
Qed.

Lemma last_item_skip (a b : R) (l : list R) :
  last_item (a :: b :: l) = last_item (b :: l).
Proof. unfold last_item. f_equal. apply last_skip. Qed.

Lemma chain_snoc (P : R -> R -> Prop) (l : list R) (x : R) :
  chain P l ->
  (forall v, last_item l = Ok v -> P v x) ->
  chain P (np_append l x).
Proof.
  unfold np_append.
  induction l as [|a l IH]; intros Hc Hl; [exact I|].
  destruct l as [|b l].
  - split; [apply Hl; reflexivity | exact I].
  - destruct Hc as [Hab Hc].
    change (P a b /\ chain P ((b :: l) ++ [x])).
    split; [exact Hab|].
    apply IH; [exact Hc|]. intros v Hv. apply Hl.
    rewrite last_item_skip. exact Hv.
Qed.


Lemma chain_Sorted (P : R -> R -> Prop) (l : list R) :
  chain P l -> Sorted P l.
Proof.
  induction l as [|a l IH]; intros Hc; [constructor|].
  constructor.
  - apply IH. eapply chain_tail; eauto.
  - destruct l as [|b l]; constructor. simpl in Hc. tauto.
Qed.

Lemma chain_StronglySorted (P : R -> R -> Prop) (l : list R) :
  Transitive P -> chain P l -> StronglySorted P l.
Proof.
  intros HT Hc. apply Sorted_StronglySorted; [exact HT|].
  apply chain_Sorted; exact Hc.
Qed.

#[local] Instance Rlt_Transitive : Transitive Rlt.
Proof. intros a b c; lra. Qed.


Lemma chain_lt_last_ge (a : R) (l : list R) :
  chain Rlt (a :: l) -> a <= last l a.
Proof.
  revert a. induction l as [|b l IH]; intros a Hc; [simpl; lra|].
  destruct Hc as [Hab Hc].
  specialize (IH b Hc).
  rewrite last_skip. lra.
Qed.

Lemma length_map2 (f : R -> R -> R) (a b : list R) :
  length a = length b -> length (map2 f a b) = length a.
Proof.
  revert b. induction a as [|x a IH]; intros [|y b]; simpl; try congruence.
  intros H. f_equal. apply IH. congruence.
Qed.

Lemma map2_snoc (f : R -> R -> R) (a b : list R) (x y : R) :
  length a = length b ->
  map2 f (a ++ [x]) (b ++ [y]) = map2 f a b ++ [f x y].
Proof.
  revert b. induction a as [|u a IH]; intros [|v b]; simpl; try congruence.
  intros H. rewrite IH by congruence. reflexivity.
Qed.

(** ** Interpolation *)

Lemma lin_at_left (a fa b fb : R) : lin a a fa b fb = fa.
Proof.
  unfold lin. destruct (Req_dec_T (b - a) 0); [reflexivity|].
  replace (a - a) with 0 by lra. unfold Rdiv. rewrite Rmult_0_l. lra.
Qed.

Lemma lin_bounds (x a fa b fb : R) :
  a < b -> fa < fb -> a <= x <= b ->
  fa <= lin x a fa b fb <= fb /\ (x < b -> lin x a fa b fb < fb).
Proof.
  intros Hab Hf Hx. unfold lin.
  destruct (Req_dec_T (b - a) 0) as [E|_]; [lra|].
  set (t := (x - a) / (b - a)).
  assert (Ht : t * (b - a) = x - a) by (unfold t; field; lra).
  assert (H0 : 0 <= t) by nra.
  assert (H1 : t <= 1) by nra.
  split; [split; nra|].
  intros Hlt. assert (t < 1) by nra. nra.
Qed.

Lemma lin_inverse (x a fa b fb : R) :
  a < b -> fa < fb -> lin (lin x a fa b fb) fa a fb b = x.
Proof.
  intros Hab Hf. unfold lin.
  destruct (Req_dec_T (b - a) 0) as [E|_]; [lra|].
  destruct (Req_dec_T (fb - fa) 0) as [E|_]; [lra|].
  field. lra.
Qed.

Lemma interp_seg_inverse (xs fs : list R) :
  forall a fa x,
    length xs = length fs ->
    chain Rlt (a :: xs) -> chain Rlt (fa :: fs) ->
    a <= x <= last xs a ->
    fa <= interp_seg x a fa xs fs <= last fs fa
    /\ interp_seg (interp_seg x a fa xs fs) fa a fs xs = x.
Proof.
  revert fs. induction xs as [|b xs IH]; intros [|fb fs] a fa x Hlen Hx Hf Hr;
    try discriminate.
  - simpl in *. split; lra.
  - destruct Hx as [Hab Hx]. destruct Hf as [Hfab Hf].
    rewrite !last_skip in *.
    pose proof (chain_lt_last_ge _ _ Hx) as Hbl.
    pose proof (chain_lt_last_ge _ _ Hf) as Hfbl.
    destruct xs as [|c xs]; destruct fs as [|fc fs]; try discriminate.
    + simpl in Hr. simpl interp_seg.
      destruct (lin_bounds x a fa b fb Hab Hfab Hr) as [Hb _].
      split; [simpl; lra|]. apply lin_inverse; assumption.
    + change (interp_seg x a fa (b :: c :: xs) (fb :: fc :: fs))
        with (if Rlt_dec x b then lin x a fa b fb
              else interp_seg x b fb (c :: xs) (fc :: fs)).
      destruct (Rlt_dec x b) as [Hxb|Hxb].
      * destruct (lin_bounds x a fa b fb Hab Hfab) as [Hb Hs]; [lra|].
        specialize (Hs Hxb). split; [lra|].
        change (interp_seg ?y fa a (fb :: fc :: fs) (b :: c :: xs))
          with (if Rlt_dec y fb then lin y fa a fb b
                else interp_seg y fb b (fc :: fs) (c :: xs)).
        destruct (Rlt_dec (lin x a fa b fb) fb); [|lra].
        apply lin_inverse; assumption.
      * destruct (IH (fc :: fs) b fb x) as [Hb Hi];
          [simpl in *; congruence | exact Hx | exact Hf | lra |].
        split; [lra|].
        change (interp_seg ?y fa a (fb :: fc :: fs) (b :: c :: xs))
          with (if Rlt_dec y fb then lin y fa a fb b
                else interp_seg y fb b (fc :: fs) (c :: xs)).
        destruct (Rlt_dec (interp_seg x b fb (c :: xs) (fc :: fs)) fb);
          [lra|exact Hi].
Qed.

Lemma interp_cons (x a fa : R) (xs fs : list R) :
  length xs = length fs ->
  interp x (a :: xs) (fa :: fs)
  = Ok (if Rlt_dec (last xs a) x then last fs fa
        else if Rlt_dec x a then fa
        else interp_seg x a fa xs fs).
Proof.
  intros Hlen. unfold interp. simpl length. rewrite Hlen, Nat.eqb_refl.
  reflexivity.
Qed.

Lemma interp_ok (x : R) (xp fp : list R) :
  xp <> [] -> length xp = length fp -> exists v, interp x xp fp = Ok v.
Proof.
  destruct xp as [|a xs]; [congruence|]. destruct fp as [|fa fs];
    [discriminate|].
  intros _ Hlen. rewrite interp_cons by (simpl in Hlen; congruence).
  eexists; reflexivity.
Qed.

Lemma interp_roundtrip (x a fa : R) (xs fs : list R) :
  length xs = length fs ->
  chain Rlt (a :: xs) -> chain Rlt (fa :: fs) ->
  a <= x <= last xs a ->
  exists y, interp x (a :: xs) (fa :: fs) = Ok y
            /\ interp y (fa :: fs) (a :: xs) = Ok x.
Proof.
  intros Hlen Hx Hf Hr.
  destruct (interp_seg_inverse xs fs a fa x Hlen Hx Hf Hr) as [Hb Hi].
  exists (interp_seg x a fa xs fs).
  rewrite !interp_cons by congruence.
  destruct (Rlt_dec (last xs a) x); [lra|].
  destruct (Rlt_dec x a); [lra|].
  split; [reflexivity|].
  destruct (Rlt_dec (last fs fa) (interp_seg x a fa xs fs)); [lra|].
  destruct (Rlt_dec (interp_seg x a fa xs fs) fa); [lra|].
  f_equal. exact Hi.
Qed.

Lemma interp_at_first (a fa : R) (xs fs : list R) :
  length xs = length fs ->
  chain Rlt (a :: xs) ->
  interp a (a :: xs) (fa :: fs) = Ok fa.
Proof.
  intros Hlen Hx. rewrite interp_cons by exact Hlen.
  pose proof (chain_lt_last_ge _ _ Hx).
  destruct (Rlt_dec (last xs a) a); [lra|].
  destruct (Rlt_dec a a); [lra|].
  f_equal.
  destruct xs as [|b xs]; destruct fs as [|fb fs]; try discriminate;
    [reflexivity|].
  destruct Hx as [Hab _].
  destruct xs as [|c xs].
  - simpl. apply lin_at_left.
  - change (interp_seg a a fa (b :: c :: xs) (fb :: fs))
      with (match fs with
            | _ => if Rlt_dec a b then lin a a fa b fb
                   else interp_seg a b fb (c :: xs) fs
            end).
    destruct (Rlt_dec a b); [|lra]. apply lin_at_left.
Qed.

(** ** The closed-form functions *)

Lemma float_pow_half (x : R) : 0 <= x -> float_pow x 0.5 = sqrt x.
Proof.
  intros Hx. unfold float_pow.
  destruct (Req_dec_T x 0) as [->|Hne].
  - destruct (Req_dec_T 0.5 0); [lra|]. symmetry. apply sqrt_0.
  - replace 0.5 with (/ 2) by lra. apply Rpower_sqrt. lra.
Qed.

Lemma z2E_radicand (c : Cosmology) (z : R) :
  z2E c z = float_pow (radicand c z) 0.5.
Proof.
  unfold z2E, radicand. replace (1.0 + z) with (1 + z) by lra. reflexivity.
Qed.

Lemma radicand_ge_1 (c : Cosmology) (z : R) :
  valid_parameters c -> 0 <= z -> 1 <= radicand c z.
Proof.
  intros (_ & _ & Hm & Hr & Hl & Hsum & Hk & _) Hz. unfold radicand.
  rewrite Hk.
  assert (H3 : 1 <= (1 + z) ^ 3).
  { replace 1 with (1 ^ 3) at 1 by lra. apply pow_incr. lra. }
  assert (H4 : 1 <= (1 + z) ^ 4).
  { replace 1 with (1 ^ 4) at 1 by lra. apply pow_incr. lra. }
  nra.
Qed.

Lemma z2E_pos (c : Cosmology) (z : R) :
  valid_parameters c -> 0 <= z -> 0 < z2E c z.
Proof.
  intros Hv Hz. pose proof (radicand_ge_1 c z Hv Hz) as Hr.
  rewrite z2E_radicand, float_pow_half by lra.
  apply sqrt_lt_R0. lra.
Qed.

Lemma C_CGS_pos : 0 < C_CGS.
Proof. unfold C_CGS, C_SI. lra. Qed.

Lemma MPC_CGS_pos : 0 < MPC_CGS.
Proof. unfold MPC_CGS, MPC_SI, PC_SI. lra. Qed.

Lemma dDcdz_pos (c : Cosmology) (z : R) :
  valid_parameters c -> 0 <= z -> 0 < dDcdz c z false.
Proof.
  intros Hv Hz. pose proof (z2E_pos c z Hv Hz) as HE.
  destruct Hv as (HHo & Hc & _). unfold dDcdz. rewrite Hc.
  pose proof C_CGS_pos.
  apply Rdiv_lt_0_compat; [apply Rdiv_lt_0_compat|]; assumption.
Qed.

Lemma z2Dc_ok (c : Cosmology) (z : R) :
  well_formed c -> exists tab, z2Dc c z = Ok tab.
Proof.
  intros (Hne & Hl & _). apply interp_ok; assumption.
Qed.

Lemma dVcdz_value (c : Cosmology) (z Dc : R) :
  well_formed c ->
  exists tab,
    z2Dc c z = Ok tab
    /\ dVcdz c z Dc = Ok (4 * PI * (where_ Dc Dc tab) ^ 2 * dDcdz c z false).
Proof.
  intros Hwf. destruct (z2Dc_ok c z Hwf) as [tab Htab].
  exists tab. split; [exact Htab|]. unfold dVcdz. rewrite Htab. reflexivity.
Qed.

Lemma dVcdz_nonneg (c : Cosmology) (z Dc v : R) :
  0 < dDcdz c z false -> dVcdz c z Dc = Ok v -> 0 <= v.
Proof.
  intros Hd. unfold dVcdz. destruct (z2Dc c z) as [tab| |]; cbn [bind];
    try discriminate.
  intros [= <-]. pose proof PI_RGT_0.
  pose proof (pow2_ge_0 (where_ Dc Dc tab)).
  apply Rmult_le_pos; [|apply Rlt_le; exact Hd]. apply Rmult_le_pos; lra.
Qed.

(** ** The loop of [extend] *)

Lemma well_formed_append (c : Cosmology) (z Dc Vc : R) :
  well_formed c ->
  well_formed (set_arrays c (np_append (self_z c) z)
                 (np_append (self_Dc c) Dc) (np_append (self_Vc c) Vc)).
Proof.
  intros (Hne & H1 & H2). unfold well_formed, np_append. simpl.
  rewrite !length_app. simpl. repeat split; try lia.
  destruct (self_z c); discriminate.
Qed.

Lemma hd_error_append (l : list R) (x v : R) :
  hd_error l = Some v -> hd_error (np_append l x) = Some v.
Proof. destruct l; [discriminate|]. intros H; exact H. Qed.

(** The body succeeds on a well-formed table, and this is what it builds. *)
Lemma extend_body_value (dz : R) (st : loop_state) :
  well_formed (ls_self st) ->
  exists dV dV',
    let self := ls_self st in
    let new_z := ls_z st + dz in
    let new_Dc :=
      ls_Dc st
      + 0.5 * (dDcdz self (ls_z st) false + dDcdz self new_z false) * dz in
    let new_Vc := ls_Vc st + 0.5 * (dV + dV') * dz in
    dVcdz self (ls_z st) (ls_Dc st) = Ok dV
    /\ dVcdz self new_z new_Dc = Ok dV'
    /\ extend_body dz st
       = Ok (mkLoop
               (set_arrays self (np_append (self_z self) new_z)
                  (np_append (self_Dc self) new_Dc)
                  (np_append (self_Vc self) new_Vc))
               new_z ((1 + new_z) * new_Dc) new_Dc new_Vc).
Proof.
  intros Hwf.
  destruct (dVcdz_value (ls_self st) (ls_z st) (ls_Dc st) Hwf)
    as (t1 & _ & H1).
  destruct (dVcdz_value (ls_self st) (ls_z st + dz)
              (ls_Dc st
               + 0.5 * (dDcdz (ls_self st) (ls_z st) false
                        + dDcdz (ls_self st) (ls_z st + dz) false) * dz) Hwf)
    as (t2 & _ & H2).
  eexists; eexists. cbv zeta. split; [exact H1|]. split; [exact H2|].
  unfold extend_body. rewrite H1, bind_Ok, H2. reflexivity.
Qed.

(** An invariant of the body is an invariant of the loop. *)
Lemma extend_loop_invariant (I : loop_state -> Prop)
    (max_DL max_Dc max_z max_Vc : ext_real) (dz : R) :
  (forall st st', I st -> extend_body dz st = Ok st' -> I st') ->
  forall fuel st c',
    I st ->
    extend_loop fuel max_DL max_Dc max_z max_Vc dz st = Ok c' ->
    exists st',
      I st' /\ ls_self st' = c'
      /\ extend_cond max_DL max_Dc max_z max_Vc st' = false.
Proof.
  intros Hbody. induction fuel as [|fuel IH]; intros st c' HI Hrun;
    simpl in Hrun;
    destruct (extend_cond max_DL max_Dc max_z max_Vc st) eqn:Hc;
    try discriminate.
  - injection Hrun as <-. exists st. auto.
  - destruct (extend_body dz st) as [st1| |] eqn:Hb; try discriminate.
    simpl in Hrun. eapply IH; [|exact Hrun]. eapply Hbody; eassumption.
  - injection Hrun as <-. exists st. auto.
Qed.

(** The start of a call: the local variables read from the arrays. *)
Lemma extend_start (fuel : nat) (c c' : Cosmology)
    (max_DL max_Dc max_z max_Vc : ext_real) (dz : R) :
  extend fuel c max_DL max_Dc max_z max_Vc dz = Ok c' ->
  exists st,
    ls_self st = c /\ coherent st
    /\ ls_DL st = ls_Dc st * (1 + ls_z st)
    /\ extend_loop fuel max_DL max_Dc max_z max_Vc dz st = Ok c'.
Proof.
  unfold extend. intros H.
  destruct (last_item (self_z c)) as [z| |] eqn:Hz; try discriminate.
  destruct (last_item (self_Dc c)) as [d| |] eqn:Hd; try discriminate.
  destruct (last_item (self_Vc c)) as [v| |] eqn:Hv; try discriminate.
  simpl in H. eexists. split; [|split; [|split; [|exact H]]].
  - reflexivity.
  - unfold coherent; simpl. auto.
  - reflexivity.
Qed.

(** ** Invariants of the table *)

Lemma body_shape (dz : R) (st st' : loop_state) :
  0 < dz ->
  shape_invariant st -> extend_body dz st = Ok st' -> shape_invariant st'.
Proof.
  intros Hdz [(Hz & Hd & Hv) (Hwf & Hcz & Hhz & Hhd & Hhv & Hlast)] Hb.
  destruct (extend_body_value dz st Hwf) as (dV & dV' & _ & _ & Hval).
  cbv zeta in Hval. rewrite Hval in Hb. injection Hb as <-.
  split.
  - unfold coherent; simpl. rewrite !last_item_app. auto.
  - unfold table_shape. split; [apply well_formed_append; exact Hwf|].
    simpl. repeat split.
    + apply chain_snoc; [exact Hcz|]. intros v Hv'.
      rewrite Hz in Hv'. injection Hv' as <-. lra.
    + apply hd_error_append; exact Hhz.
    + apply hd_error_append; exact Hhd.
    + apply hd_error_append; exact Hhv.
    + intros v. rewrite last_item_app. intros [= <-].
      specialize (Hlast _ Hz). lra.
Qed.

Lemma body_monotone (dz : R) (st st' : loop_state) :
  0 < dz ->
  monotone_invariant st -> extend_body dz st = Ok st' ->
  monotone_invariant st'.
Proof.
  intros Hdz [Hco (Hsh & Hval & Hcd & Hcv & Hdlast)] Hb.
  destruct (body_shape dz st st' Hdz (conj Hco Hsh) Hb) as [Hco' Hsh'].
  split; [exact Hco'|].
  destruct Hco as (Hz & Hd & Hv).
  pose proof Hsh as (Hwf & _ & _ & _ & _ & Hzlast).
  destruct (extend_body_value dz st Hwf) as (dV & dV' & H1 & H2 & Hbv).
  cbv zeta in H1, H2, Hbv.
  specialize (Hzlast _ Hz). specialize (Hdlast _ Hd).
  pose proof (dDcdz_pos _ (ls_z st) Hval Hzlast) as Hp1.
  assert (Hz' : 0 <= ls_z st + dz) by lra.
  pose proof (dDcdz_pos _ (ls_z st + dz) Hval Hz') as Hp2.
  pose proof (dVcdz_nonneg _ _ _ _ Hp1 H1) as Hn1.
  pose proof (dVcdz_nonneg _ _ _ _ Hp2 H2) as Hn2.
  clear H1 H2.
  remember (dDcdz (ls_self st) (ls_z st) false) as d1 eqn:E1.
  remember (dDcdz (ls_self st) (ls_z st + dz) false) as d2 eqn:E2.
  clear E1 E2.
  rewrite Hbv in Hb. injection Hb as <-.
  assert (Hstep : 0 < 0.5 * (d1 + d2) * dz)
    by (apply Rmult_lt_0_compat; lra).
  assert (Hvstep : 0 <= 0.5 * (dV + dV') * dz)
    by (apply Rmult_le_pos; lra).
  unfold table_monotone; simpl. split; [exact Hsh'|]. split; [exact Hval|].
  repeat split.
  - apply chain_snoc; [exact Hcd|]. intros v Hv'.
    rewrite Hd in Hv'. injection Hv' as <-. lra.
  - apply chain_snoc; [exact Hcv|]. intros v Hv'.
    rewrite Hv in Hv'. injection Hv' as <-. lra.
  - intros v. rewrite last_item_app. intros [= <-]. lra.
Qed.


Lemma extend_shape (fuel : nat) (c c' : Cosmology)
    (max_DL max_Dc max_z max_Vc : ext_real) (dz : R) :
  0 < dz -> table_shape c ->
  extend fuel c max_DL max_Dc max_z max_Vc dz = Ok c' -> table_shape c'.
Proof.
  intros Hdz Hsh Hrun.
  destruct (extend_start _ _ _ _ _ _ _ _ Hrun) as (st & <- & Hco & _ & Hl).
  destruct (extend_loop_invariant shape_invariant _ _ _ _ dz
              (fun s s' => body_shape dz s s' Hdz) _ _ _ (conj Hco Hsh) Hl)
    as (st' & [_ Hsh'] & <- & _).
  exact Hsh'.
Qed.

Lemma extend_monotone (fuel : nat) (c c' : Cosmology)
    (max_DL max_Dc max_z max_Vc : ext_real) (dz : R) :
  0 < dz -> table_monotone c ->
  extend fuel c max_DL max_Dc max_z max_Vc dz = Ok c' -> table_monotone c'.
Proof.
  intros Hdz Hsh Hrun.
  destruct (extend_start _ _ _ _ _ _ _ _ Hrun) as (st & <- & Hco & _ & Hl).
  destruct (extend_loop_invariant monotone_invariant _ _ _ _ dz
              (fun s s' => body_monotone dz s s' Hdz) _ _ _ (conj Hco Hsh) Hl)
    as (st' & [_ Hsh'] & <- & _).
  exact Hsh'.
Qed.


Lemma init_shape (Ho Om Or OL : R) (u : string) (c0 : Cosmology) :
  __init__ Ho Om Or OL u = Ok c0 -> table_shape c0.
Proof.
  unfold __init__. destruct (Req_dec_T Ho 0); [discriminate|].
  destruct (Req_dec_T (1.0 - (Om + Or + OL)) 0); [|discriminate].
  intros [= <-]. unfold table_shape, well_formed; simpl.
  replace 0.0 with 0 by lra.
  repeat split; try reflexivity; try discriminate.
  intros v [= <-]. lra.
Qed.

Lemma init_monotone (Ho Om Or OL : R) (u : string) (c0 : Cosmology) :
  0 < Ho -> 0 <= Om -> 0 <= Or -> 0 <= OL -> Om + Or + OL = 1 ->
  __init__ Ho Om Or OL u = Ok c0 -> table_monotone c0.
Proof.
  intros HHo Hm Hr Hl Hsum Hinit.
  pose proof (init_shape _ _ _ _ _ _ Hinit) as Hsh.
  unfold __init__ in Hinit. destruct (Req_dec_T Ho 0); [discriminate|].
  destruct (Req_dec_T (1.0 - (Om + Or + OL)) 0) as [Hk|]; [|discriminate].
  injection Hinit as <-.
  unfold table_monotone, valid_parameters; simpl.
  split; [exact Hsh|]. repeat split; try assumption; try exact I.
  - pose proof MPC_CGS_pos. destruct (String.eqb u "mpc"); lra.
  - intros v [= <-]. lra.
Qed.

Lemma grown_shape (c0 c : Cosmology) :
  table_shape c0 -> grown c0 c -> table_shape c.
Proof.
  intros H0 Hg. induction Hg as [|c c' fuel b1 b2 b3 b4 dz _ IH Hdz Hrun];
    [exact H0|].
  eapply extend_shape; eassumption.
Qed.

Lemma grown_monotone (c0 c : Cosmology) :
  table_monotone c0 -> grown c0 c -> table_monotone c.
Proof.
  intros H0 Hg. induction Hg as [|c c' fuel b1 b2 b3 b4 dz _ IH Hdz Hrun];
    [exact H0|].
  eapply extend_monotone; eassumption.
Qed.

(** ** Construction *)

Lemma init_flat_model (Ho Om Or OL : R) (u : string) :
  Ho <> 0 -> 1 - (Om + Or + OL) = 0 ->
  __init__ Ho Om Or OL u = Ok (flat_model Ho Om Or OL u).
Proof.
  intros HHo Hk. unfold __init__, flat_model.
  destruct (Req_dec_T Ho 0); [contradiction|].
  destruct (Req_dec_T (1.0 - (Om + Or + OL)) 0); [reflexivity|lra].
Qed.

Lemma init_refused (Ho Om Or OL : R) (u : string) :
  Ho <> 0 -> 1 - (Om + Or + OL) <> 0 ->
  __init__ Ho Om Or OL u = Raise AssertionError.
Proof.
  intros HHo Hk. unfold __init__.
  destruct (Req_dec_T Ho 0); [contradiction|].
  destruct (Req_dec_T (1.0 - (Om + Or + OL)) 0); [lra|reflexivity].
Qed.

Lemma init_zero_Ho (Om Or OL : R) (u : string) :
  __init__ 0 Om Or OL u = Raise ZeroDivisionError.
Proof.
  unfold __init__. destruct (Req_dec_T 0 0); [reflexivity|lra].
Qed.

(** C2, as the code has it.  The assertion on the curvature is the only
    check of the constructor; the sign of [Ho] is not looked at.  The
    constructor raises the assertion error exactly when [Ho] is not zero
    and [1 - (OmegaMatter + OmegaRadiation + OmegaLambda)] is not zero, and
    it returns an object exactly when [Ho] is not zero (negative values
    included) and that curvature is zero.  (With [Ho] zero the division
    [C_CGS / Ho] stops the constructor before the assertion.) *)
Theorem init_assertion_iff (Ho Om Or OL : R) (u : string) :
  (__init__ Ho Om Or OL u = Raise AssertionError
   <-> Ho <> 0 /\ 1 - (Om + Or + OL) <> 0)
  /\ ((exists c, __init__ Ho Om Or OL u = Ok c)
      <-> Ho <> 0 /\ 1 - (Om + Or + OL) = 0).
Proof.
  destruct (Req_dec_T Ho 0) as [->|HHo];
    [|destruct (Req_dec_T (1 - (Om + Or + OL)) 0) as [Hk|Hk]].
  - rewrite init_zero_Ho.
    split; split; try discriminate; try (intros [H _]; lra).
    intros [c Hc]; discriminate.
  - rewrite (init_flat_model _ _ _ _ _ HHo Hk).
    split; split; try discriminate.
    + intros [_ H]. contradiction.
    + intros _. split; assumption.
    + intros _. eexists; reflexivity.
  - rewrite (init_refused _ _ _ _ _ HHo Hk).
    split; split.
    + intros _. split; assumption.
    + reflexivity.
    + intros [c Hc]; discriminate.
    + intros [_ H]. contradiction.
Qed.

(** C2, as the spec states it, fails: a negative Hubble rate with flat
    densities is accepted, although the claim has construction fail
    whenever [Ho <= 0]. *)
Lemma init_negative_Ho_accepted :
  ~ (__init__ (-1) 1 0 0 "mpc" = Raise AssertionError
     <-> (1 - (1 + 0 + 0) <> 0 \/ -1 <= 0)).
Proof.
  intros [_ H].
  assert (Hf : __init__ (-1) 1 0 0 "mpc" = Raise AssertionError)
    by (apply H; right; lra).
  rewrite init_flat_model in Hf by lra. discriminate.
Qed.

(** The example of the spec: densities 0.3, 0 and 0.8 are refused. *)
Example init_curved_refused (Ho : R) :
  Ho <> 0 -> __init__ Ho 0.3 0 0.8 "mpc" = Raise AssertionError.
Proof.
  intros HHo. apply init_refused; [exact HHo|lra].
Qed.

(** ** The expansion rate *)

(** C8.  Where the radicand is not negative, [z2E] is its square root;
    for the matter-dominated parameters (1, 0, 0) the value at [z = 0] is
    exactly 1. *)
Theorem z2E_is_sqrt :
  (forall (c : Cosmology) (z : R),
      0 <= radicand c z ->
      z2E c z
      = sqrt (self_OmegaLambda c + self_OmegaKappa c * (1 + z) ^ 2
              + self_OmegaMatter c * (1 + z) ^ 3
              + self_OmegaRadiation c * (1 + z) ^ 4))
  /\ (forall (Ho : R) (u : string) (c : Cosmology),
         __init__ Ho 1 0 0 u = Ok c -> z2E c 0 = 1).
Proof.
  split.
  - intros c z Hr. rewrite z2E_radicand. apply float_pow_half. exact Hr.
  - intros Ho u c Hinit. unfold __init__ in Hinit.
    destruct (Req_dec_T Ho 0); [discriminate|].
    destruct (Req_dec_T (1.0 - (1 + 0 + 0)) 0); [|discriminate].
    injection Hinit as <-.
    rewrite z2E_radicand. unfold radicand; simpl.
    match goal with
    | |- float_pow ?r _ = _ => replace r with 1 by lra
    end.
    rewrite float_pow_half by lra. apply sqrt_1.
Qed.

(** ** One pass of the loop *)

Lemma extend_loop_pass (fuel : nat) (max_DL max_Dc max_z max_Vc : ext_real)
    (dz : R) (st st' : loop_state) :
  extend_cond max_DL max_Dc max_z max_Vc st = true ->
  extend_body dz st = Ok st' ->
  extend_loop (S fuel) max_DL max_Dc max_z max_Vc dz st
  = extend_loop fuel max_DL max_Dc max_z max_Vc dz st'.
Proof.
  intros Hc Hb. simpl. rewrite Hc, Hb. reflexivity.
Qed.

Lemma extend_loop_stop (fuel : nat) (max_DL max_Dc max_z max_Vc : ext_real)
    (dz : R) (st : loop_state) :
  extend_cond max_DL max_Dc max_z max_Vc st = false ->
  extend_loop fuel max_DL max_Dc max_z max_Vc dz st = Ok (ls_self st).
Proof.
  intros Hc. destruct fuel; simpl; rewrite Hc; reflexivity.
Qed.

Lemma where_nonzero (Dc tab : R) : Dc <> 0 -> where_ Dc Dc tab = Dc.
Proof. intros H. unfold where_. destruct (Req_dec_T Dc 0); tauto. Qed.

(** C5.  On a well-formed table a pass of the loop succeeds and appends
    one sample: [new_z = z + dz],
    [new_Dc = Dc + 0.5 * (dDcdz z + dDcdz new_z) * dz] and
    [new_Vc = Vc + 0.5 * (dV + dV') * dz], where [dV] and [dV'] are the
    results of [dVcdz z Dc] and [dVcdz new_z new_Dc], called with the
    explicit distances; for a distance that is not zero the result is
    [4 * PI * Dc ^ 2 * dDcdz z], whatever the table holds.  A pass is what
    the loop does each time its condition holds. *)
Theorem extend_pass_trapezoid (dz : R) (st : loop_state) :
  well_formed (ls_self st) ->
  let self := ls_self st in
  let z := ls_z st in
  let Dc := ls_Dc st in
  let Vc := ls_Vc st in
  let new_z := z + dz in
  let new_Dc := Dc + 0.5 * (dDcdz self z false + dDcdz self new_z false) * dz in
  exists dV dV' st',
    dVcdz self z Dc = Ok dV
    /\ dVcdz self new_z new_Dc = Ok dV'
    /\ extend_body dz st = Ok st'
    /\ ls_z st' = new_z
    /\ ls_Dc st' = new_Dc
    /\ ls_Vc st' = Vc + 0.5 * (dV + dV') * dz
    /\ self_z (ls_self st') = self_z self ++ [ls_z st']
    /\ self_Dc (ls_self st') = self_Dc self ++ [ls_Dc st']
    /\ self_Vc (ls_self st') = self_Vc self ++ [ls_Vc st']
    /\ (Dc <> 0 -> dV = 4 * PI * Dc ^ 2 * dDcdz self z false)
    /\ (new_Dc <> 0 -> dV' = 4 * PI * new_Dc ^ 2 * dDcdz self new_z false)
    /\ (forall fuel max_DL max_Dc max_z max_Vc,
           extend_cond max_DL max_Dc max_z max_Vc st = true ->
           extend_loop (S fuel) max_DL max_Dc max_z max_Vc dz st
           = extend_loop fuel max_DL max_Dc max_z max_Vc dz st').
Proof.
  intros Hwf self z Dc Vc new_z new_Dc.
  destruct (extend_body_value dz st Hwf) as (dV & dV' & H1 & H2 & Hb).
  cbv zeta in H1, H2, Hb. fold self z Dc Vc new_z in H1, H2, Hb.
  fold new_Dc in H2, Hb.
  exists dV, dV'. eexists. split; [exact H1|]. split; [exact H2|].
  split; [exact Hb|]. cbn [ls_z ls_Dc ls_Vc ls_self set_arrays self_z
                            self_Dc self_Vc].
  repeat split.
  - intros Hne. destruct (dVcdz_value self z Dc Hwf) as (tab & _ & Hv).
    rewrite H1 in Hv. injection Hv as ->. rewrite where_nonzero by exact Hne.
    reflexivity.
  - intros Hne.
    destruct (dVcdz_value self new_z new_Dc Hwf) as (tab & _ & Hv).
    rewrite H2 in Hv. injection Hv as ->. rewrite where_nonzero by exact Hne.
    reflexivity.
  - intros fuel b1 b2 b3 b4 Hc. apply extend_loop_pass; assumption.
Qed.

(** ** Calls that make no pass *)

Lemma less_self (x : R) (b : ext_real) :
  b = NegInf \/ b = Fin x -> less x b = false.
Proof.
  intros [-> | ->]; simpl; [reflexivity|].
  destruct (Rlt_dec x x); [lra|reflexivity].
Qed.

Lemma extend_satisfied (c : Cosmology) (dz zl dl vl : R)
    (max_DL max_Dc max_z max_Vc : ext_real) :
  last_item (self_z c) = Ok zl ->
  last_item (self_Dc c) = Ok dl ->
  last_item (self_Vc c) = Ok vl ->
  less (dl * (1 + zl)) max_DL = false ->
  less dl max_Dc = false ->
  less zl max_z = false ->
  less vl max_Vc = false ->
  forall fuel, extend fuel c max_DL max_Dc max_z max_Vc dz = Ok c.
Proof.
  intros Hz Hd Hv H1 H2 H3 H4 fuel. unfold extend.
  rewrite Hz, Hd, Hv, !bind_Ok. apply extend_loop_stop.
  unfold extend_cond; cbn [ls_z ls_Dc ls_Vc ls_DL].
  rewrite H1, H2, H3, H4. reflexivity.
Qed.

(** C10.  With every bound at its default [-inf], or equal to the value
    of the last sample, [extend] makes no pass through the loop and
    returns the object as it was: the result is the same object for every
    fuel, fuel [0] included. *)
Theorem extend_no_pass (c : Cosmology) (dz zl dl vl : R)
    (max_DL max_Dc max_z max_Vc : ext_real) :
  last_item (self_z c) = Ok zl ->
  last_item (self_Dc c) = Ok dl ->
  last_item (self_Vc c) = Ok vl ->
  max_DL = NegInf \/ max_DL = Fin (dl * (1 + zl)) ->
  max_Dc = NegInf \/ max_Dc = Fin dl ->
  max_z = NegInf \/ max_z = Fin zl ->
  max_Vc = NegInf \/ max_Vc = Fin vl ->
  forall fuel, extend fuel c max_DL max_Dc max_z max_Vc dz = Ok c.
Proof.
  intros Hz Hd Hv H1 H2 H3 H4.
  apply (extend_satisfied c dz zl dl vl); auto using less_self.
Qed.

(** ** Queries outside the table *)

Lemma hd_error_map2 (f : R -> R -> R) (a b : list R) (x y : R) :
  hd_error a = Some x -> hd_error b = Some y ->
  hd_error (map2 f a b) = Some (f x y).
Proof.
  destruct a, b; simpl; try discriminate. intros [= ->] [= ->]. reflexivity.
Qed.

Lemma last_item_map2 (f : R -> R -> R) (a b : list R) (x y : R) :
  length a = length b ->
  last_item a = Ok x -> last_item b = Ok y ->
  last_item (map2 f a b) = Ok (f x y).
Proof.
  revert b. induction a as [|u a IH]; intros [|v b] Hlen Ha Hb;
    try discriminate.
  destruct a as [|u' a]; destruct b as [|v' b]; try discriminate.
  - simpl in *. congruence.
  - rewrite last_item_skip in Ha, Hb.
    change (map2 f (u :: u' :: a) (v :: v' :: b))
      with (f u v :: f u' v' :: map2 f a b).
    rewrite last_item_skip.
    apply (IH (v' :: b)); [simpl in *; congruence | assumption..].
Qed.

Lemma interp_above (x xl fl : R) (xp fp : list R) :
  length xp = length fp ->
  last_item xp = Ok xl -> last_item fp = Ok fl ->
  xl < x -> interp x xp fp = Ok fl.
Proof.
  destruct xp as [|a xs]; destruct fp as [|fa fs]; try discriminate.
  intros Hlen [= Hx] [= Hf] Hlt.
  rewrite interp_cons by (simpl in Hlen; congruence).
  rewrite Hx, Hf. destruct (Rlt_dec xl x); [reflexivity|lra].
Qed.

Lemma interp_below (x x0 xl f0 : R) (xp fp : list R) :
  length xp = length fp ->
  hd_error xp = Some x0 -> hd_error fp = Some f0 ->
  last_item xp = Ok xl ->
  x0 <= xl -> x < x0 -> interp x xp fp = Ok f0.
Proof.
  destruct xp as [|a xs]; destruct fp as [|fa fs]; try discriminate.
  intros Hlen [= ->] [= ->] [= Hx] Hle Hlt.
  rewrite interp_cons by (simpl in Hlen; congruence).
  rewrite Hx. destruct (Rlt_dec xl x); [lra|].
  destruct (Rlt_dec x x0); [reflexivity|lra].
Qed.

Lemma length_DL (c : Cosmology) :
  well_formed c -> length (DL c) = length (self_z c).
Proof.
  intros (_ & H & _). unfold DL. rewrite length_map2; congruence.
Qed.

(** C7.  On a table whose first redshift and luminosity distance are not
    above its last ones, a query outside the tabulated range returns the
    value of the boundary sample at that end (for [z2DL] in the unit of
    the object), and no query raises. *)
Theorem queries_clamp (c : Cosmology) (z0 zl d0 dl : R) :
  well_formed c ->
  hd_error (self_z c) = Some z0 -> last_item (self_z c) = Ok zl ->
  hd_error (self_Dc c) = Some d0 -> last_item (self_Dc c) = Ok dl ->
  z0 <= zl -> d0 * (1 + z0) <= dl * (1 + zl) ->
  (forall x, x < z0 ->
     z2Dc c x = Ok d0
     /\ z2DL c x = Ok (d0 * (1 + z0) / self_unit_mod c))
  /\ (forall x, zl < x ->
        z2Dc c x = Ok dl
        /\ z2DL c x = Ok (dl * (1 + zl) / self_unit_mod c))
  /\ (forall d, d * self_unit_mod c < d0 * (1 + z0) -> DL2z c d = Ok z0)
  /\ (forall d, dl * (1 + zl) < d * self_unit_mod c -> DL2z c d = Ok zl)
  /\ (forall x, exists v, z2Dc c x = Ok v)
  /\ (forall x, exists v, z2DL c x = Ok v)
  /\ (forall d, exists v, DL2z c d = Ok v).
Proof.
  intros Hwf Hz0 Hzl Hd0 Hdl Hz Hd.
  pose proof (length_DL c Hwf) as HlenDL.
  pose proof Hwf as (Hne & Hl1 & Hl2).
  assert (HDL0 : hd_error (DL c) = Some (d0 * (1 + z0)))
    by (apply (hd_error_map2 (fun d z => d * (1 + z))); assumption).
  assert (HDLl : last_item (DL c) = Ok (dl * (1 + zl)))
    by (apply (last_item_map2 (fun d z => d * (1 + z)));
        [congruence | assumption..]).
  repeat split.
  - apply (interp_below x z0 zl); auto.
  - unfold z2DL. rewrite (interp_below x z0 zl (d0 * (1 + z0))); auto.
  - apply (interp_above x zl); auto.
  - unfold z2DL. rewrite (interp_above x zl (dl * (1 + zl))); auto.
  - intros d Hlt. apply (interp_below _ (d0 * (1 + z0)) (dl * (1 + zl))); auto.
  - intros d Hlt. apply (interp_above _ (dl * (1 + zl))); auto.
  - intros x. apply z2Dc_ok; exact Hwf.
  - intros x. unfold z2DL.
    destruct (interp_ok x (self_z c) (DL c) Hne) as [v Hv]; [congruence|].
    rewrite Hv. eexists; reflexivity.
  - intros d. apply interp_ok; [|exact HlenDL].
    intros E. rewrite E in HlenDL. destruct (self_z c); [congruence|].
    discriminate.
Qed.

(** ** Models with a constant rate dDc/dz *)

Lemma flat_model_well_formed (Ho Om Or OL : R) (u : string) :
  well_formed (flat_model Ho Om Or OL u).
Proof. unfold well_formed; simpl. repeat split; discriminate. Qed.

Lemma float_pow_1 (y : R) : float_pow 1 y = 1.
Proof.
  unfold float_pow. destruct (Req_dec_T 1 0); [lra|].
  unfold Rpower. rewrite ln_1, Rmult_0_r. apply exp_0.
Qed.

Lemma de_sitter_rate (Ho k : R) (u : string) :
  Ho <> 0 -> C_CGS / Ho = k -> constant_rate k (flat_model Ho 0 0 1 u).
Proof.
  intros HHo Hk z. unfold dDcdz, z2E, flat_model.
  cbn [self_c_over_Ho self_OmegaLambda self_OmegaKappa self_OmegaMatter
         self_OmegaRadiation].
  replace (1.0 - (0 + 0 + 1)) with 0 by lra.
  match goal with
  | |- _ / float_pow ?r _ = _ => replace r with 1 by ring
  end.
  rewrite float_pow_1, <- Hk. field. exact HHo.
Qed.

Lemma constant_rate_set_arrays (k : R) (c : Cosmology) (z Dc Vc : list R) :
  constant_rate k c -> constant_rate k (set_arrays c z Dc Vc).
Proof. intros H x. exact (H x). Qed.

Lemma constant_rate_body (k dz : R) (st : loop_state) :
  well_formed (ls_self st) ->
  constant_rate k (ls_self st) ->
  exists v,
    extend_body dz st
    = Ok (mkLoop
            (set_arrays (ls_self st)
               (np_append (self_z (ls_self st)) (ls_z st + dz))
               (np_append (self_Dc (ls_self st)) (ls_Dc st + k * dz))
               (np_append (self_Vc (ls_self st)) v))
            (ls_z st + dz) ((1 + (ls_z st + dz)) * (ls_Dc st + k * dz))
            (ls_Dc st + k * dz) v).
Proof.
  intros Hwf Hk.
  destruct (extend_body_value dz st Hwf) as (dV & dV' & _ & _ & Hb).
  cbv zeta in Hb. rewrite !Hk in Hb.
  replace (ls_Dc st + 0.5 * (k + k) * dz) with (ls_Dc st + k * dz) in Hb
    by lra.
  eexists. exact Hb.
Qed.

Lemma extend_flat_model (fuel : nat) (Ho Om Or OL : R) (u : string)
    (max_DL max_Dc max_z max_Vc : ext_real) (dz : R) :
  extend fuel (flat_model Ho Om Or OL u) max_DL max_Dc max_z max_Vc dz
  = extend_loop fuel max_DL max_Dc max_z max_Vc dz
      (mkLoop (flat_model Ho Om Or OL u) 0.0 (0.0 * (1 + 0.0)) 0.0 0.0).
Proof. reflexivity. Qed.

(** ** The seed and the queries at zero *)

(** C9, as the spec states it, fails for a call with a negative step:
    the table then runs downwards from the seed, [0] lies above its last
    redshift, and [z2Dc 0] is the last distance and not the seed. *)
Lemma seed_missed_after_negative_step :
  exists c',
    __init__ C_CGS 0 0 1 "cm" = Ok (flat_model C_CGS 0 0 1 "cm")
    /\ extend 2 (flat_model C_CGS 0 0 1 "cm") (Fin 1) NegInf NegInf NegInf (-1)
       = Ok c'
    /\ self_z c' = [0; -1; -2]
    /\ self_Dc c' = [0; -1; -2]
    /\ z2Dc c' 0 = Ok (-2).
Proof.
  pose proof C_CGS_pos as HC.
  set (c0 := flat_model C_CGS 0 0 1 "cm").
  assert (Hr0 : constant_rate 1 c0)
    by (apply de_sitter_rate; [lra | field; lra]).
  pose proof (flat_model_well_formed C_CGS 0 0 1 "cm") as Hw0. fold c0 in Hw0.
  set (st0 := mkLoop c0 0.0 (0.0 * (1 + 0.0)) 0.0 0.0).
  destruct (constant_rate_body 1 (-1) st0 Hw0 Hr0) as [v1 Hb1].
  cbn [ls_self ls_z ls_Dc ls_Vc st0] in Hb1.
  match type of Hb1 with _ = Ok ?s => set (st1 := s) in * end.
  assert (Hw1 : well_formed (ls_self st1))
    by (apply well_formed_append; exact Hw0).
  assert (Hr1 : constant_rate 1 (ls_self st1))
    by (apply constant_rate_set_arrays; exact Hr0).
  destruct (constant_rate_body 1 (-1) st1 Hw1 Hr1) as [v2 Hb2].
  cbn [ls_self ls_z ls_Dc ls_Vc st1] in Hb2.
  match type of Hb2 with _ = Ok ?s => set (st2 := s) in * end.
  exists (ls_self st2).
  split; [apply init_flat_model; lra|].
  split.
  - fold c0. unfold c0 at 1. rewrite extend_flat_model. fold c0 st0.
    rewrite (extend_loop_pass _ _ _ _ _ _ st0 st1);
      [|loop_cond st0|exact Hb1].
    rewrite (extend_loop_pass _ _ _ _ _ _ st1 st2);
      [|loop_cond st1|exact Hb2].
    apply extend_loop_stop. loop_cond st2.
  - split; [unfold st2, c0; array_eq|]. split; [unfold st2, c0; array_eq|].
    unfold z2Dc.
    rewrite (interp_above 0 (0.0 + -1 + -1) (0.0 + 1 * -1 + 1 * -1)).
    + f_equal. lra.
    + reflexivity.
    + cbn [st2 ls_self set_arrays self_z]. rewrite last_item_app. reflexivity.
    + cbn [st2 ls_self set_arrays self_Dc]. rewrite last_item_app.
      reflexivity.
    + lra.
Qed.

Lemma seed_queries_of_shape (c : Cosmology) :
  table_shape c -> z2Dc c 0 = Ok 0 /\ z2DL c 0 = Ok 0.
Proof.
  intros ((_ & Hl1 & _) & Hcz & Hhz & Hhd & _ & _).
  unfold z2Dc, z2DL, DL.
  destruct (self_z c) as [|a xs]; [discriminate|].
  destruct (self_Dc c) as [|d ds]; [discriminate|].
  injection Hhz as ->. injection Hhd as ->.
  simpl in Hl1. injection Hl1 as Hl1.
  split.
  - apply interp_at_first; assumption.
  - cbn [map2]. rewrite interp_at_first;
      [|rewrite length_map2; congruence|exact Hcz].
    rewrite bind_Ok. f_equal. unfold Rdiv. ring.
Qed.

(** C9, for positive steps.  After construction and any sequence of calls
    of [extend] with a positive step, [z2Dc 0] and [z2DL 0] are zero. *)
Theorem seed_queries (Ho Om Or OL : R) (u : string) (c0 c : Cosmology) :
  __init__ Ho Om Or OL u = Ok c0 ->
  grown c0 c ->
  z2Dc c 0 = Ok 0 /\ z2DL c 0 = Ok 0.
Proof.
  intros Hinit Hg. apply seed_queries_of_shape.
  apply (grown_shape c0); [|exact Hg]. eapply init_shape; exact Hinit.
Qed.

(** ** The round trip through the luminosity distance *)

Lemma chain_DL (zs ds : list R) :
  forall z0 d0,
    length zs = length ds ->
    0 <= z0 -> 0 <= d0 ->
    chain Rlt (z0 :: zs) -> chain Rlt (d0 :: ds) ->
    chain Rlt (map2 (fun d z => d * (1 + z)) (d0 :: ds) (z0 :: zs)).
Proof.
  revert ds. induction zs as [|z1 zs IH]; intros [|d1 ds] z0 d0 Hlen Hz Hd Hcz Hcd;
    try discriminate.
  - exact I.
  - destruct Hcz as [Hz01 Hcz]. destruct Hcd as [Hd01 Hcd].
    change (d0 * (1 + z0) < d1 * (1 + z1)
            /\ chain Rlt (map2 (fun d z => d * (1 + z)) (d1 :: ds) (z1 :: zs))).
    split; [nra|].
    apply IH; [simpl in Hlen; congruence | lra | lra | assumption..].
Qed.

(** C6, as the spec states it, fails on a table of a model with a negative
    Hubble rate, which the constructor accepts: distances then decrease
    with the redshift, and the round trip from [z = 0], inside the table
    [0, 1, 2] built with step 1, comes back as 2. *)
Lemma roundtrip_lost_with_negative_Ho :
  exists c',
    __init__ (- C_CGS) 0 0 1 "cm" = Ok (flat_model (- C_CGS) 0 0 1 "cm")
    /\ extend 2 (flat_model (- C_CGS) 0 0 1 "cm")
         NegInf NegInf (Fin 2) NegInf 1 = Ok c'
    /\ self_z c' = [0; 1; 2]
    /\ self_Dc c' = [0; -1; -2]
    /\ z2DL c' 0 = Ok 0
    /\ DL2z c' 0 = Ok 2.
Proof.
  pose proof C_CGS_pos as HC.
  set (c0 := flat_model (- C_CGS) 0 0 1 "cm").
  assert (Hr0 : constant_rate (-1) c0)
    by (apply de_sitter_rate; [lra | field; lra]).
  pose proof (flat_model_well_formed (- C_CGS) 0 0 1 "cm") as Hw0.
  fold c0 in Hw0.
  set (st0 := mkLoop c0 0.0 (0.0 * (1 + 0.0)) 0.0 0.0).
  destruct (constant_rate_body (-1) 1 st0 Hw0 Hr0) as [v1 Hb1].
  cbn [ls_self ls_z ls_Dc ls_Vc st0] in Hb1.
  match type of Hb1 with _ = Ok ?s => set (st1 := s) in * end.
  assert (Hw1 : well_formed (ls_self st1))
    by (apply well_formed_append; exact Hw0).
  assert (Hr1 : constant_rate (-1) (ls_self st1))
    by (apply constant_rate_set_arrays; exact Hr0).
  destruct (constant_rate_body (-1) 1 st1 Hw1 Hr1) as [v2 Hb2].
  cbn [ls_self ls_z ls_Dc ls_Vc st1] in Hb2.
  match type of Hb2 with _ = Ok ?s => set (st2 := s) in * end.
  assert (Hw2 : well_formed (ls_self st2))
    by (apply well_formed_append; exact Hw1).
  assert (Hrun : extend 2 c0 NegInf NegInf (Fin 2) NegInf 1
                 = Ok (ls_self st2)).
  { unfold c0 at 1. rewrite extend_flat_model. fold c0 st0.
    rewrite (extend_loop_pass _ _ _ _ _ _ st0 st1);
      [|loop_cond st0|exact Hb1].
    rewrite (extend_loop_pass _ _ _ _ _ _ st1 st2);
      [|loop_cond st1|exact Hb2].
    apply extend_loop_stop. loop_cond st2. }
  exists (ls_self st2).
  split; [apply init_flat_model; lra|].
  split; [exact Hrun|].
  split; [unfold st2, c0; array_eq|]. split; [unfold st2, c0; array_eq|].
  assert (Hsh : table_shape (ls_self st2)).
  { apply (extend_shape _ _ _ _ _ _ _ 1 ltac:(lra)
             (init_shape _ _ _ _ _ _
                (init_flat_model (- C_CGS) 0 0 1 "cm" ltac:(lra) ltac:(lra)))
             Hrun). }
  split; [apply seed_queries_of_shape; exact Hsh|].
  unfold DL2z.
  rewrite (interp_above _ ((0.0 + -1 * 1 + -1 * 1) * (1 + (0.0 + 1 + 1)))
             (0.0 + 1 + 1)).
  - f_equal. lra.
  - apply length_DL; exact Hw2.
  - apply (last_item_map2 (fun d z => d * (1 + z))).
    + destruct Hw2 as (_ & H & _). symmetry; exact H.
    + cbn [st2 ls_self set_arrays self_Dc]. rewrite last_item_app.
      reflexivity.
    + cbn [st2 ls_self set_arrays self_z]. rewrite last_item_app.
      reflexivity.
  - cbn [st2 ls_self set_arrays self_z]. rewrite last_item_app. reflexivity.
  - cbn [st2 ls_self set_arrays self_unit_mod c0 flat_model]. simpl. lra.
Qed.

(** C6, for valid parameters and positive steps.  With [Ho > 0] and
    non-negative densities that sum to 1, on a table grown by calls with a
    positive step, [DL2z (z2DL z)] is [z] itself for every [z] between the
    first and the last tabulated redshift (so it is within any step of
    [z]). *)
Theorem roundtrip_DL (Ho Om Or OL : R) (u : string) (c0 c : Cosmology)
    (x zl : R) :
  0 < Ho -> 0 <= Om -> 0 <= Or -> 0 <= OL -> Om + Or + OL = 1 ->
  __init__ Ho Om Or OL u = Ok c0 ->
  grown c0 c ->
  last_item (self_z c) = Ok zl ->
  0 <= x <= zl ->
  exists d, z2DL c x = Ok d /\ DL2z c d = Ok x.
Proof.
  intros HHo Hm Hr Hl Hsum Hinit Hg Hzl Hx.
  assert (Hmono : table_monotone c).
  { apply (grown_monotone c0); [|exact Hg].
    eapply init_monotone; [..|exact Hinit]; assumption. }
  destruct Hmono as (((_ & Hl1 & _) & Hcz & Hhz & Hhd & _ & _)
                     & Hval & Hcd & _ & _).
  destruct Hval as (_ & _ & _ & _ & _ & _ & _ & Hu).
  unfold z2DL, DL2z, DL.
  destruct (self_z c) as [|a xs]; [discriminate|].
  destruct (self_Dc c) as [|d0 ds]; [discriminate|].
  injection Hhz as ->. injection Hhd as ->. injection Hzl as Hzl.
  simpl in Hl1. injection Hl1 as Hl1.
  pose proof (chain_DL xs ds 0 0 Hl1 ltac:(lra) ltac:(lra) Hcz Hcd) as HcDL.
  cbn [map2] in HcDL |- *.
  destruct (interp_roundtrip x 0 (0 * (1 + 0)) xs
              (map2 (fun d z => d * (1 + z)) ds xs)) as (y & Hy & Hback).
  - rewrite length_map2; congruence.
  - exact Hcz.
  - exact HcDL.
  - rewrite Hzl. exact Hx.
  - exists (y / self_unit_mod c). rewrite Hy, bind_Ok. split; [reflexivity|].
    replace (y / self_unit_mod c * self_unit_mod c) with y by (field; lra).
    exact Hback.
Qed.

(** ** The volume element and its logarithm *)

Lemma ln_MPC_CGS : 34 < ln MPC_CGS.
Proof.
  assert (H3 : 1 <= ln 3).
  { destruct (Rle_lt_dec 1 (ln 3)) as [H|H]; [exact H|].
    apply exp_increasing in H. rewrite exp_ln in H by lra.
    pose proof exp_le_3. lra. }
  assert (Hp : ln (3 ^ 34) = 34 * ln 3).
  { rewrite ln_pow by lra. simpl INR. ring. }
  assert (Hlt : ln (3 ^ 34) < ln MPC_CGS).
  { apply ln_increasing; [apply pow_lt; lra|].
    unfold MPC_CGS, MPC_SI, PC_SI. simpl. lra. }
  lra.
Qed.

(** C1, as the code has it.  Where the distance used and [dDcdz z] are
    positive, [logdVcdz] is the logarithm of [dVcdz] minus three times the
    logarithm of the unit factor; the two agree when that factor is 1
    (any [distance_unit] other than "mpc"). *)
Theorem logdVcdz_vs_dVcdz (c : Cosmology) (z Dc tab : R) :
  z2Dc c z = Ok tab ->
  0 < where_ Dc Dc tab ->
  0 < dDcdz c z false ->
  exists v w,
    dVcdz c z Dc = Ok v
    /\ logdVcdz c z Dc = Ok w
    /\ w = ln v - 3 * ln (self_unit_mod c)
    /\ (self_unit_mod c = 1 -> w = ln v).
Proof.
  intros Htab HD Hd. unfold dVcdz, logdVcdz. rewrite Htab, !bind_Ok.
  do 2 eexists. split; [reflexivity|]. split; [reflexivity|].
  pose proof PI_RGT_0 as Hpi.
  set (D := where_ Dc Dc tab) in *. set (d := dDcdz c z false) in *.
  assert (HD2 : 0 < D ^ 2) by (apply pow_lt; exact HD).
  assert (Hln : ln (4 * PI * D ^ 2 * d) = ln (4 * PI) + 2 * ln D + ln d).
  { rewrite ln_mult; [|apply Rmult_lt_0_compat; lra|exact Hd].
    rewrite ln_mult; [|lra|exact HD2].
    rewrite ln_pow by exact HD. simpl INR. ring. }
  split.
  - rewrite Hln. lra.
  - intros Hu. rewrite Hln, Hu, ln_1. lra.
Qed.

(** C1, as the spec states it, fails for the default unit "mpc": at
    [z = 0] and [Dc = 1] the logarithmic function is more than 100 below
    the logarithm of the linear one. *)
Lemma logdVcdz_differs_in_mpc :
  exists v w,
    __init__ C_CGS 0 0 1 "mpc" = Ok (flat_model C_CGS 0 0 1 "mpc")
    /\ dVcdz (flat_model C_CGS 0 0 1 "mpc") 0 1 = Ok v
    /\ logdVcdz (flat_model C_CGS 0 0 1 "mpc") 0 1 = Ok w
    /\ w < ln v - 100.
Proof.
  pose proof C_CGS_pos as HC.
  set (c := flat_model C_CGS 0 0 1 "mpc").
  assert (Hr : constant_rate 1 c)
    by (apply de_sitter_rate; [lra | field; lra]).
  destruct (z2Dc_ok c 0 (flat_model_well_formed _ _ _ _ _)) as [tab Htab].
  unfold dVcdz, logdVcdz. rewrite Htab, !bind_Ok.
  do 2 eexists. split; [apply init_flat_model; lra|].
  split; [reflexivity|]. split; [reflexivity|].
  rewrite where_nonzero by lra. rewrite (Hr 0).
  replace (4 * PI * 1 ^ 2 * 1) with (4 * PI) by ring.
  rewrite ln_1.
  change (self_unit_mod c) with MPC_CGS.
  pose proof ln_MPC_CGS. lra.
Qed.

(** ** Reaching a redshift *)

Lemma body_well_formed (dz : R) (st : loop_state) :
  well_formed (ls_self st) ->
  exists st',
    extend_body dz st = Ok st'
    /\ well_formed (ls_self st')
    /\ coherent st'
    /\ ls_z st' = ls_z st + dz.
Proof.
  intros Hwf.
  destruct (extend_body_value dz st Hwf) as (dV & dV' & _ & _ & Hb).
  cbv zeta in Hb. eexists. split; [exact Hb|].
  cbn [ls_self ls_z]. split; [apply well_formed_append; exact Hwf|].
  split; [|reflexivity].
  unfold coherent. cbn [ls_self ls_z ls_Dc ls_Vc set_arrays self_z self_Dc
                          self_Vc].
  rewrite !last_item_app. auto.
Qed.

Lemma extend_loop_reaches (m dz : R) :
  0 < dz ->
  forall n st,
    well_formed (ls_self st) -> coherent st ->
    ls_z st < m -> m <= ls_z st + INR n * dz ->
    exists fuel c' zl',
      extend_loop fuel NegInf NegInf (Fin m) NegInf dz st = Ok c'
      /\ well_formed c'
      /\ last_item (self_z c') = Ok zl'
      /\ m <= zl' < m + dz.
Proof.
  intros Hdz. induction n as [|n IH]; intros st Hwf Hco Hlt Hreach.
  - simpl in Hreach. lra.
  - destruct (body_well_formed dz st Hwf) as (st' & Hb & Hwf' & Hco' & Hz').
    assert (Hc : extend_cond NegInf NegInf (Fin m) NegInf st = true).
    { unfold extend_cond, less. destruct (Rlt_dec (ls_z st) m); [|lra].
      reflexivity. }
    destruct (Rlt_dec (ls_z st') m) as [Hlt'|Hge].
    + destruct (IH st' Hwf' Hco' Hlt') as (fuel & c' & zl' & Hrun & Hrest).
      { rewrite Hz'. rewrite S_INR in Hreach. lra. }
      exists (S fuel), c', zl'. split; [|exact Hrest].
      rewrite (extend_loop_pass _ _ _ _ _ _ st st' Hc Hb). exact Hrun.
    + exists 1%nat, (ls_self st'), (ls_z st').
      split; [|split; [exact Hwf'|split; [apply Hco'|lra]]].
      rewrite (extend_loop_pass _ _ _ _ _ _ st st' Hc Hb).
      apply extend_loop_stop. unfold extend_cond, less.
      destruct (Rlt_dec (ls_z st') m); [lra|reflexivity].
Qed.

Lemma extend_reaches_max_z (c : Cosmology) (zl m dz : R) :
  well_formed c -> last_item (self_z c) = Ok zl ->
  zl < m -> 0 < dz ->
  exists fuel c' zl',
    extend fuel c NegInf NegInf (Fin m) NegInf dz = Ok c'
    /\ well_formed c'
    /\ last_item (self_z c') = Ok zl'
    /\ m <= zl' < m + dz.
Proof.
  intros Hwf Hzl Hlt Hdz.
  pose proof Hwf as (Hne & Hl1 & Hl2).
  destruct (last_item_cons (self_Dc c)) as [dl Hdl].
  { intros E. rewrite E in Hl1. destruct (self_z c); [congruence|discriminate]. }
  destruct (last_item_cons (self_Vc c)) as [vl Hvl].
  { intros E. rewrite E in Hl2. destruct (self_Dc c); discriminate. }
  destruct (INR_archimed dz (m - zl) Hdz) as [n Hn].
  set (st := mkLoop c zl (dl * (1 + zl)) dl vl).
  destruct (extend_loop_reaches m dz Hdz n st) as (fuel & c' & zl' & Hrun & H);
    [exact Hwf | unfold coherent; simpl; auto | exact Hlt | simpl; lra |].
  exists fuel, c', zl'. split; [|exact H].
  unfold extend. rewrite Hzl, Hdl, Hvl, !bind_Ok. exact Hrun.
Qed.

(** C3.  On a table whose last redshift is below 1.0, the call
    [extend(max_z=1.0, dz=0.001)] returns (some fuel suffices), its last
    redshift is at least 1.0 and less than one step above 1.0, and a
    following call with [max_z=0.5] makes no pass and returns the same
    object, whatever its step. *)
Theorem extend_to_one_then_half (c : Cosmology) (zl : R) :
  well_formed c ->
  last_item (self_z c) = Ok zl ->
  zl < 1.0 ->
  exists fuel c' zl',
    extend fuel c NegInf NegInf (Fin 1.0) NegInf 0.001 = Ok c'
    /\ last_item (self_z c') = Ok zl'
    /\ 1.0 <= zl' /\ zl' - 1.0 < 0.001
    /\ (forall fuel' dz',
          extend fuel' c' NegInf NegInf (Fin 0.5) NegInf dz' = Ok c').
Proof.
  intros Hwf Hzl Hlt.
  destruct (extend_reaches_max_z c zl 1.0 0.001 Hwf Hzl Hlt ltac:(lra))
    as (fuel & c' & zl' & Hrun & Hwf' & Hzl' & Hr).
  exists fuel, c', zl'. split; [exact Hrun|]. split; [exact Hzl'|].
  split; [lra|]. split; [lra|].
  intros fuel' dz'.
  pose proof Hwf' as (Hne & Hl1 & Hl2).
  destruct (last_item_cons (self_Dc c')) as [dl Hdl].
  { intros E. rewrite E in Hl1. destruct (self_z c'); [congruence|discriminate]. }
  destruct (last_item_cons (self_Vc c')) as [vl Hvl].
  { intros E. rewrite E in Hl2. destruct (self_Dc c'); discriminate. }
  apply (extend_satisfied c' dz' zl' dl vl); try assumption; try reflexivity.
  unfold less. destruct (Rlt_dec zl' 0.5); [lra|reflexivity].
Qed.

(** ** Monotone, append-only tables *)


(** ** The default cosmology of the module (lines 136-144) *)

Lemma PLANCK_2018_Ho_pos : 0 < PLANCK_2018_Ho.
Proof.
  unfold PLANCK_2018_Ho, MPC_SI, PC_SI. apply Rdiv_lt_0_compat; lra.
Qed.

Lemma PLANCK_2018_flat :
  PLANCK_2018_OmegaMatter + PLANCK_2018_OmegaRadiation
  + PLANCK_2018_OmegaLambda = 1.
Proof.
  unfold PLANCK_2018_OmegaLambda, PLANCK_2018_OmegaMatter,
    PLANCK_2018_OmegaRadiation. lra.
Qed.

Lemma PLANCK_2018_init :
  __init__ PLANCK_2018_Ho PLANCK_2018_OmegaMatter PLANCK_2018_OmegaRadiation
    PLANCK_2018_OmegaLambda "mpc" = Ok PLANCK_2018_seed.
Proof.
  apply init_flat_model.
  - pose proof PLANCK_2018_Ho_pos. lra.
  - pose proof PLANCK_2018_flat. lra.
Qed.

(** The call [PLANCK_2018_Cosmology.extend(max_z=DEFAULT_MAXZ)] made when
    the module is loaded returns, with a last redshift between 2.5 and
    2.501. *)
Example PLANCK_2018_Cosmology_extended :
  exists fuel c zl,
    extend fuel PLANCK_2018_seed NegInf NegInf (Fin DEFAULT_MAXZ) NegInf
      DEFAULT_DZ = Ok c
    /\ last_item (self_z c) = Ok zl
    /\ DEFAULT_MAXZ <= zl < DEFAULT_MAXZ + DEFAULT_DZ.
Proof.
  destruct (extend_reaches_max_z PLANCK_2018_seed 0.0 DEFAULT_MAXZ DEFAULT_DZ)
    as (fuel & c & zl & Hrun & _ & Hzl & Hr).
  - apply flat_model_well_formed.
  - reflexivity.
  - unfold DEFAULT_MAXZ. lra.
  - unfold DEFAULT_DZ. lra.
  - exists fuel, c, zl. auto.
Qed.

(** The hypotheses on the parameters, for the default cosmology. *)
Ltac planck :=
  first
    [ exact PLANCK_2018_Ho_pos
    | exact PLANCK_2018_flat
    | exact PLANCK_2018_init
    | apply grown_start
    | apply flat_model_well_formed
    | reflexivity
    | unfold PLANCK_2018_OmegaLambda, PLANCK_2018_OmegaMatter,
        PLANCK_2018_OmegaRadiation; lra ].

Lemma planck_run_to_one :
  exists fuel c zl,
    extend fuel PLANCK_2018_seed NegInf NegInf (Fin 1.0) NegInf DEFAULT_DZ
    = Ok c
    /\ well_formed c
    /\ last_item (self_z c) = Ok zl
    /\ 1.0 <= zl < 1.0 + DEFAULT_DZ.
Proof.
  apply (extend_reaches_max_z PLANCK_2018_seed 0.0); try planck.
  unfold DEFAULT_DZ; lra.
Qed.

Lemma planck_valid : valid_parameters PLANCK_2018_seed.
Proof.
  apply (init_monotone PLANCK_2018_Ho PLANCK_2018_OmegaMatter
           PLANCK_2018_OmegaRadiation PLANCK_2018_OmegaLambda "mpc");
    planck.
Qed.

(** The default cosmology after [extend(max_z=1.0)]: a table grown from
    the seed, with a last redshift of at least 1. *)
Lemma planck_table_to_one :
  exists fuel c zl,
    extend fuel PLANCK_2018_seed NegInf NegInf (Fin 1.0) NegInf DEFAULT_DZ
    = Ok c
    /\ grown PLANCK_2018_seed c
    /\ last_item (self_z c) = Ok zl
    /\ 1.0 <= zl.
Proof.
  destruct planck_run_to_one as (fuel & c & zl & Hrun & _ & Hzl & Hr).
  exists fuel, c, zl. split; [exact Hrun|].
  split; [|split; [exact Hzl|lra]].
  eapply grown_extend; [apply grown_start | | exact Hrun].
  unfold DEFAULT_DZ; lra.
Qed.

(** A table with three samples: the model with [OmegaLambda = 1] and
    [Ho = C_CGS], distances in cm, after [extend(max_z=2, dz=1)]. *)
Lemma de_sitter_run :
  exists c,
    extend 2 (flat_model C_CGS 0 0 1 "cm") NegInf NegInf (Fin 2) NegInf 1
    = Ok c
    /\ grown (flat_model C_CGS 0 0 1 "cm") c
    /\ well_formed c
    /\ self_z c = [0; 1; 2]
    /\ self_Dc c = [0; 1; 2]
    /\ self_unit_mod c = 1.
Proof.
  pose proof C_CGS_pos as HC.
  set (c0 := flat_model C_CGS 0 0 1 "cm").
  assert (Hr0 : constant_rate 1 c0)
    by (apply de_sitter_rate; [lra | field; lra]).
  pose proof (flat_model_well_formed C_CGS 0 0 1 "cm") as Hw0. fold c0 in Hw0.
  set (st0 := mkLoop c0 0.0 (0.0 * (1 + 0.0)) 0.0 0.0).
  destruct (constant_rate_body 1 1 st0 Hw0 Hr0) as [v1 Hb1].
  cbn [ls_self ls_z ls_Dc ls_Vc st0] in Hb1.
  match type of Hb1 with _ = Ok ?s => set (st1 := s) in * end.
  assert (Hw1 : well_formed (ls_self st1))
    by (apply well_formed_append; exact Hw0).
  assert (Hr1 : constant_rate 1 (ls_self st1))
    by (apply constant_rate_set_arrays; exact Hr0).
  destruct (constant_rate_body 1 1 st1 Hw1 Hr1) as [v2 Hb2].
  cbn [ls_self ls_z ls_Dc ls_Vc st1] in Hb2.
  match type of Hb2 with _ = Ok ?s => set (st2 := s) in * end.
  assert (Hw2 : well_formed (ls_self st2))
    by (apply well_formed_append; exact Hw1).
  assert (Hrun : extend 2 c0 NegInf NegInf (Fin 2) NegInf 1
                 = Ok (ls_self st2)).
  { unfold c0 at 1. rewrite extend_flat_model. fold c0 st0.
    rewrite (extend_loop_pass _ _ _ _ _ _ st0 st1);
      [|loop_cond st0|exact Hb1].
    rewrite (extend_loop_pass _ _ _ _ _ _ st1 st2);
      [|loop_cond st1|exact Hb2].
    apply extend_loop_stop. loop_cond st2. }
  exists (ls_self st2).
  split; [exact Hrun|].
  split; [eapply grown_extend; [apply grown_start | | exact Hrun]; lra|].
  split; [exact Hw2|].
  split; [unfold st2, c0; array_eq|]. split; [unfold st2, c0; array_eq|].
  cbn [st2 ls_self set_arrays self_unit_mod c0 flat_model]. simpl. lra.
Qed.

(** The hypotheses on the parameters, for that model. *)
Ltac de_sitter :=
  first
    [ exact C_CGS_pos
    | apply init_flat_model; pose proof C_CGS_pos; lra
    | lra ].

(** ** The theorems at concrete inputs *)

Lemma logdVcdz_vs_dVcdz_witness :
  exists v w,
    dVcdz (flat_model C_CGS 0 0 1 "cm") 0 1 = Ok v
    /\ logdVcdz (flat_model C_CGS 0 0 1 "cm") 0 1 = Ok w
    /\ w = ln v - 3 * ln (self_unit_mod (flat_model C_CGS 0 0 1 "cm"))
    /\ (self_unit_mod (flat_model C_CGS 0 0 1 "cm") = 1 -> w = ln v).
Proof.
  apply (logdVcdz_vs_dVcdz (flat_model C_CGS 0 0 1 "cm") 0 1 0).
  - apply seed_queries_of_shape.
    apply (init_shape C_CGS 0 0 1 "cm"). apply init_flat_model.
    + pose proof C_CGS_pos; lra.
    + lra.
  - rewrite where_nonzero; lra.
  - rewrite (de_sitter_rate C_CGS 1 "cm").
    + lra.
    + pose proof C_CGS_pos; lra.
    + pose proof C_CGS_pos. field. lra.
Defined.

Lemma extend_to_one_then_half_witness :
  exists fuel c' zl',
    extend fuel PLANCK_2018_seed NegInf NegInf (Fin 1.0) NegInf 0.001 = Ok c'
    /\ last_item (self_z c') = Ok zl'
    /\ 1.0 <= zl' /\ zl' - 1.0 < 0.001
    /\ (forall fuel' dz',
          extend fuel' c' NegInf NegInf (Fin 0.5) NegInf dz' = Ok c').
Proof.
  apply (extend_to_one_then_half PLANCK_2018_seed 0.0).
  - apply flat_model_well_formed.
  - reflexivity.
  - lra.
Defined.


Lemma extend_pass_trapezoid_witness :
  exists st',
    extend_body DEFAULT_DZ (mkLoop PLANCK_2018_seed 0.0 0.0 0.0 0.0) = Ok st'
    /\ ls_z st' = 0.0 + DEFAULT_DZ
    /\ self_z (ls_self st') = [0.0] ++ [ls_z st'].
Proof.
  destruct (extend_pass_trapezoid DEFAULT_DZ
              (mkLoop PLANCK_2018_seed 0.0 0.0 0.0 0.0))
    as (dV & dV' & st' & _ & _ & Hb & Hz & _ & _ & Harr & _).
  - apply flat_model_well_formed.
  - exists st'. split; [exact Hb|]. split; [exact Hz|exact Harr].
Defined.

Lemma roundtrip_DL_witness :
  exists fuel c zl d,
    extend fuel PLANCK_2018_seed NegInf NegInf (Fin 1.0) NegInf DEFAULT_DZ
    = Ok c
    /\ last_item (self_z c) = Ok zl
    /\ 1.0 <= zl
    /\ z2DL c 0.5 = Ok d
    /\ DL2z c d = Ok 0.5.
Proof.
  destruct planck_table_to_one as (fuel & c & zl & Hrun & Hg & Hzl & Hr).
  destruct (roundtrip_DL PLANCK_2018_Ho PLANCK_2018_OmegaMatter
              PLANCK_2018_OmegaRadiation PLANCK_2018_OmegaLambda "mpc"
              PLANCK_2018_seed c 0.5 zl) as (d & H1 & H2).
  - exact PLANCK_2018_Ho_pos.
  - unfold PLANCK_2018_OmegaMatter. lra.
  - unfold PLANCK_2018_OmegaRadiation. lra.
  - unfold PLANCK_2018_OmegaLambda, PLANCK_2018_OmegaMatter. lra.
  - exact PLANCK_2018_flat.
  - exact PLANCK_2018_init.
  - exact Hg.
  - exact Hzl.
  - lra.
  - exists fuel, c, zl, d. auto.
Defined.

Lemma queries_clamp_witness :
  exists c,
    extend 2 (flat_model C_CGS 0 0 1 "cm") NegInf NegInf (Fin 2) NegInf 1
    = Ok c
    /\ self_z c = [0; 1; 2]
    /\ self_Dc c = [0; 1; 2]
    /\ z2Dc c (-1) = Ok 0
    /\ z2Dc c 3 = Ok 2
    /\ z2DL c (-1) = Ok (0 * (1 + 0) / self_unit_mod c)
    /\ z2DL c 3 = Ok (2 * (1 + 2) / self_unit_mod c)
    /\ DL2z c (-1) = Ok 0
    /\ DL2z c 7 = Ok 2.
Proof.
  destruct de_sitter_run as (c & Hrun & _ & Hwf & Hz & Hd & Hu).
  destruct (queries_clamp c 0 2 0 2)
    as (Hlow & Hhigh & HDlow & HDhigh & _).
  - exact Hwf.
  - rewrite Hz. reflexivity.
  - rewrite Hz. reflexivity.
  - rewrite Hd. reflexivity.
  - rewrite Hd. reflexivity.
  - lra.
  - lra.
  - exists c. split; [exact Hrun|]. split; [exact Hz|]. split; [exact Hd|].
    split; [apply Hlow; lra|]. split; [apply Hhigh; lra|].
    split; [apply Hlow; lra|]. split; [apply Hhigh; lra|].
    split; [apply HDlow; rewrite Hu; lra|].
    apply HDhigh. rewrite Hu. lra.
Defined.

Lemma z2E_is_sqrt_witness :
  z2E (flat_model 1 1 0 0 "mpc") 0 = sqrt 1
  /\ z2E (flat_model 1 1 0 0 "mpc") 0 = 1.
Proof.
  destruct z2E_is_sqrt as [Hsqrt Hone]. split.
  - rewrite (Hsqrt (flat_model 1 1 0 0 "mpc") 0).
    + f_equal. cbn [flat_model self_OmegaLambda self_OmegaKappa
                      self_OmegaMatter self_OmegaRadiation]. lra.
    + unfold radicand.
      cbn [flat_model self_OmegaLambda self_OmegaKappa self_OmegaMatter
             self_OmegaRadiation]. lra.
  - apply (Hone 1 "mpc"%string). apply init_flat_model; lra.
Defined.

Lemma seed_queries_witness :
  exists fuel c zl,
    extend fuel PLANCK_2018_seed NegInf NegInf (Fin 1.0) NegInf DEFAULT_DZ
    = Ok c
    /\ last_item (self_z c) = Ok zl
    /\ 1.0 <= zl
    /\ z2Dc c 0 = Ok 0
    /\ z2DL c 0 = Ok 0.
Proof.
  destruct planck_table_to_one as (fuel & c & zl & Hrun & Hg & Hzl & Hr).
  exists fuel, c, zl. split; [exact Hrun|]. split; [exact Hzl|].
  split; [exact Hr|].
  apply (seed_queries PLANCK_2018_Ho PLANCK_2018_OmegaMatter
           PLANCK_2018_OmegaRadiation PLANCK_2018_OmegaLambda "mpc"
           PLANCK_2018_seed c).
  - exact PLANCK_2018_init.
  - exact Hg.
Defined.

Lemma extend_no_pass_witness :
  extend 0 PLANCK_2018_seed NegInf NegInf NegInf NegInf DEFAULT_DZ
  = Ok PLANCK_2018_seed.
Proof.
  apply (extend_no_pass PLANCK_2018_seed DEFAULT_DZ 0.0 0.0 0.0);
    try reflexivity; left; reflexivity.
Defined.

(** * Further properties of the class *)

(** ** What a pass of the loop builds, without assumption on the table *)

Lemma extend_body_inv (dz : R) (st st' : loop_state) :
  extend_body dz st = Ok st' ->
  exists v,
    st' = mkLoop
            (set_arrays (ls_self st)
               (np_append (self_z (ls_self st)) (ls_z st + dz))
               (np_append (self_Dc (ls_self st)) (ls_Dc st'))
               (np_append (self_Vc (ls_self st)) v))
            (ls_z st + dz) ((1 + (ls_z st + dz)) * ls_Dc st') (ls_Dc st') v
    /\ ls_Dc st'
       = ls_Dc st
         + 0.5 * (dDcdz (ls_self st) (ls_z st) false
                  + dDcdz (ls_self st) (ls_z st + dz) false) * dz.
Proof.
  intros Hb. unfold extend_body in Hb.
  destruct (dVcdz (ls_self st) (ls_z st) (ls_Dc st)) as [dV| |];
    try discriminate.
  rewrite bind_Ok in Hb.
  match type of Hb with
  | bind ?m _ = _ => destruct m as [dV'| |]; try discriminate
  end.
  rewrite bind_Ok in Hb. injection Hb as <-.
  eexists. split; reflexivity.
Qed.

Lemma body_coherent (dz : R) (st st' : loop_state) :
  extend_body dz st = Ok st' ->
  coherent st' /\ ls_DL st' = ls_Dc st' * (1 + ls_z st')
  /\ ls_z st' = ls_z st + dz.
Proof.
  intros Hb. destruct (extend_body_inv dz st st' Hb) as (v & E & _).
  rewrite E. unfold coherent.
  cbn [ls_self ls_z ls_DL ls_Dc ls_Vc set_arrays self_z self_Dc self_Vc].
  rewrite !last_item_app. repeat split. ring.
Qed.

Lemma less_false_met (x : R) (b : ext_real) :
  less x b = false <-> met x b.
Proof.
  destruct b as [|r|]; simpl.
  - tauto.
  - destruct (Rlt_dec x r); split; intros H; try discriminate; try lra;
      reflexivity.
  - split; [discriminate|tauto].
Qed.

Lemma extend_cond_false (max_DL max_Dc max_z max_Vc : ext_real)
    (st : loop_state) :
  extend_cond max_DL max_Dc max_z max_Vc st = false ->
  met (ls_Dc st) max_Dc /\ met (ls_DL st) max_DL
  /\ met (ls_z st) max_z /\ met (ls_Vc st) max_Vc.
Proof.
  unfold extend_cond. intros H.
  apply Bool.orb_false_iff in H. destruct H as [H H4].
  apply Bool.orb_false_iff in H. destruct H as [H H3].
  apply Bool.orb_false_iff in H. destruct H as [H1 H2].
  rewrite <- !less_false_met. auto.
Qed.

(** ** The bounds are met when [extend] returns *)

(** X1.  When [extend] returns, the last sample meets each of the four
    bounds: none of them is [+inf], and a finite bound is at most the
    last [Dc], [DL = Dc * (1 + z)], [z] or [Vc] respectively. *)
Theorem extend_bounds_met (fuel : nat) (c c' : Cosmology)
    (max_DL max_Dc max_z max_Vc : ext_real) (dz : R) :
  extend fuel c max_DL max_Dc max_z max_Vc dz = Ok c' ->
  exists zl dl vl,
    last_item (self_z c') = Ok zl
    /\ last_item (self_Dc c') = Ok dl
    /\ last_item (self_Vc c') = Ok vl
    /\ met dl max_Dc
    /\ met (dl * (1 + zl)) max_DL
    /\ met zl max_z
    /\ met vl max_Vc.
Proof.
  intros Hrun.
  destruct (extend_start _ _ _ _ _ _ _ _ Hrun) as (st & _ & Hco & HDL & Hl).
  destruct (extend_loop_invariant
              (fun s => coherent s /\ ls_DL s = ls_Dc s * (1 + ls_z s))
              max_DL max_Dc max_z max_Vc dz) with (fuel := fuel) (st := st)
              (c' := c')
    as (st' & [(Hz & Hd & Hv) HDL'] & <- & Hc); auto.
  { intros s s' _ Hb. destruct (body_coherent dz s s' Hb) as (H1 & H2 & _).
    auto. }
  destruct (extend_cond_false _ _ _ _ _ Hc) as (M1 & M2 & M3 & M4).
  exists (ls_z st'), (ls_Dc st'), (ls_Vc st').
  rewrite <- HDL'. auto 10.
Qed.

(** ** [extend] keeps the parameters and grows the arrays together *)

Lemma same_parameters_refl (c : Cosmology) : same_parameters c c.
Proof. unfold same_parameters. auto 10. Qed.

Lemma same_parameters_rates (c c' : Cosmology) :
  same_parameters c c' ->
  forall z, z2E c' z = z2E c z
            /\ forall mpc, dDcdz c' z mpc = dDcdz c z mpc.
Proof.
  intros (_ & Hc & _ & Hm & Hr & Hl & Hk) z.
  assert (HE : z2E c' z = z2E c z)
    by (unfold z2E; rewrite Hm, Hr, Hl, Hk; reflexivity).
  split; [exact HE|]. intros mpc. unfold dDcdz. rewrite HE, Hc. reflexivity.
Qed.

(** X2.  [extend] never changes the parameters of the object, so [z2E] and
    [dDcdz] are the same functions after the call, and it appends the same
    number of entries to each of the three arrays. *)
Theorem extend_keeps_parameters (fuel : nat) (c c' : Cosmology)
    (max_DL max_Dc max_z max_Vc : ext_real) (dz : R) :
  extend fuel c max_DL max_Dc max_z max_Vc dz = Ok c' ->
  same_parameters c c'
  /\ (forall z, z2E c' z = z2E c z
                /\ forall mpc, dDcdz c' z mpc = dDcdz c z mpc)
  /\ exists n,
       length (self_z c') = (length (self_z c) + n)%nat
       /\ length (self_Dc c') = (length (self_Dc c) + n)%nat
       /\ length (self_Vc c') = (length (self_Vc c) + n)%nat.
Proof.
  intros Hrun.
  destruct (extend_start _ _ _ _ _ _ _ _ Hrun) as (st & Hs & _ & _ & Hl).
  destruct (extend_loop_invariant
              (fun s =>
                 same_parameters c (ls_self s)
                 /\ exists n,
                      length (self_z (ls_self s)) = (length (self_z c) + n)%nat
                      /\ length (self_Dc (ls_self s))
                         = (length (self_Dc c) + n)%nat
                      /\ length (self_Vc (ls_self s))
                         = (length (self_Vc c) + n)%nat)
              max_DL max_Dc max_z max_Vc dz) with (fuel := fuel) (st := st)
              (c' := c')
    as (st' & [Hp Hn] & <- & _); auto.
  - intros s s' [Hp (n & N1 & N2 & N3)] Hb.
    destruct (extend_body_inv dz s s' Hb) as (v & E & _). rewrite E.
    cbn [ls_self]. split; [exact Hp|]. exists (S n).
    unfold set_arrays, np_append; cbn [self_z self_Dc self_Vc].
    rewrite !length_app, N1, N2, N3. simpl. lia.
  - rewrite Hs. split; [apply same_parameters_refl|]. exists 0%nat. lia.
  - split; [exact Hp|]. split; [|exact Hn].
    apply same_parameters_rates; exact Hp.
Qed.

(** ** Calls that never return *)

Lemma extend_loop_forever (J : loop_state -> Prop)
    (max_DL max_Dc max_z max_Vc : ext_real) (dz : R) :
  (forall st, J st ->
     extend_cond max_DL max_Dc max_z max_Vc st = true
     /\ exists st', extend_body dz st = Ok st' /\ J st') ->
  forall fuel st,
    J st -> extend_loop fuel max_DL max_Dc max_z max_Vc dz st = OutOfFuel.
Proof.
  intros HJ. induction fuel as [|fuel IH]; intros st Hst;
    destruct (HJ st Hst) as (Hc & st' & Hb & Hst'); simpl; rewrite Hc.
  - reflexivity.
  - rewrite Hb, bind_Ok. apply IH; exact Hst'.
Qed.

Lemma extend_cond_true_z (max_DL max_Dc max_z max_Vc : ext_real)
    (st : loop_state) :
  less (ls_z st) max_z = true ->
  extend_cond max_DL max_Dc max_z max_Vc st = true.
Proof.
  intros H. unfold extend_cond. rewrite H.
  rewrite Bool.orb_true_r. reflexivity.
Qed.

(** X3.  On a well-formed table, a call of [extend] with [max_z = +inf],
    or with a step [dz <= 0] and a finite [max_z] above the last redshift,
    never returns and never raises: the loop is still running after any
    number of passes. *)
Theorem extend_never_returns (c : Cosmology) (zl dz : R)
    (max_DL max_Dc max_z max_Vc : ext_real) :
  well_formed c ->
  last_item (self_z c) = Ok zl ->
  max_z = PosInf \/ (dz <= 0 /\ exists m, max_z = Fin m /\ zl < m) ->
  forall fuel, extend fuel c max_DL max_Dc max_z max_Vc dz = OutOfFuel.
Proof.
  intros Hwf Hzl Hcase fuel.
  pose proof Hwf as (Hne & Hl1 & Hl2).
  destruct (last_item_cons (self_Dc c)) as [dl Hdl].
  { intros E. rewrite E in Hl1. destruct (self_z c); [congruence|discriminate]. }
  destruct (last_item_cons (self_Vc c)) as [vl Hvl].
  { intros E. rewrite E in Hl2. destruct (self_Dc c); discriminate. }
  unfold extend. rewrite Hzl, Hdl, Hvl, !bind_Ok.
  destruct Hcase as [-> | (Hdz & m & -> & Hlt)].
  - apply (extend_loop_forever (fun s => well_formed (ls_self s))).
    + intros st Hst. split; [apply extend_cond_true_z; reflexivity|].
      destruct (body_well_formed dz st Hst) as (st' & Hb & Hw & _).
      exists st'. auto.
    + exact Hwf.
  - apply (extend_loop_forever
             (fun s => well_formed (ls_self s) /\ ls_z s < m)).
    + intros st [Hst Hz]. split.
      * apply extend_cond_true_z. unfold less.
        destruct (Rlt_dec (ls_z st) m); [reflexivity|lra].
      * destruct (body_well_formed dz st Hst) as (st' & Hb & Hw & _ & Hz').
        exists st'. split; [exact Hb|]. split; [exact Hw|]. rewrite Hz'. lra.
    + split; [exact Hwf|exact Hlt].
Qed.

(** ** Calls of [extend] in sequence *)

Lemma extend_loop_more_fuel (max_DL max_Dc max_z max_Vc : ext_real) (dz : R) :
  forall f k st c,
    extend_loop f max_DL max_Dc max_z max_Vc dz st = Ok c ->
    extend_loop (f + k) max_DL max_Dc max_z max_Vc dz st = Ok c.
Proof.
  induction f as [|f IH]; intros k st c H; simpl in H;
    destruct (extend_cond max_DL max_Dc max_z max_Vc st) eqn:Hc;
    try discriminate.
  - rewrite extend_loop_stop by exact Hc. exact H.
  - destruct (extend_body dz st) as [st'| |] eqn:Hb; try discriminate.
    rewrite bind_Ok in H. change (S f + k)%nat with (S (f + k)).
    rewrite (extend_loop_pass _ _ _ _ _ _ st st' Hc Hb). apply IH; exact H.
  - rewrite extend_loop_stop by exact Hc. exact H.
Qed.

Lemma less_bound_le (x : R) (a b : ext_real) :
  bound_le a b -> less x a = true -> less x b = true.
Proof.
  destruct a as [|r|], b as [|r'|]; simpl; try tauto; try discriminate;
    try reflexivity.
  intros Hle. destruct (Rlt_dec x r); [|discriminate].
  destruct (Rlt_dec x r'); [reflexivity|lra].
Qed.

Lemma extend_cond_mono (a1 a2 a3 a4 b1 b2 b3 b4 : ext_real)
    (st : loop_state) :
  bound_le a1 b1 -> bound_le a2 b2 -> bound_le a3 b3 -> bound_le a4 b4 ->
  extend_cond a1 a2 a3 a4 st = true -> extend_cond b1 b2 b3 b4 st = true.
Proof.
  intros H1 H2 H3 H4. unfold extend_cond. rewrite !Bool.orb_true_iff.
  intros [[[H|H]|H]|H]; eauto using less_bound_le.
Qed.

Lemma loop_then_loop (a1 a2 a3 a4 b1 b2 b3 b4 : ext_real) (dz : R) :
  (forall st, extend_cond a1 a2 a3 a4 st = true ->
              extend_cond b1 b2 b3 b4 st = true) ->
  forall f1 st c1,
    extend_loop f1 a1 a2 a3 a4 dz st = Ok c1 ->
    exists st1,
      ls_self st1 = c1
      /\ (st1 = st
          \/ (coherent st1 /\ ls_DL st1 = ls_Dc st1 * (1 + ls_z st1)))
      /\ forall f2 c2,
          extend_loop f2 b1 b2 b3 b4 dz st1 = Ok c2 ->
          extend_loop (f1 + f2) b1 b2 b3 b4 dz st = Ok c2.
Proof.
  intros Hmono. induction f1 as [|f1 IH]; intros st c1 H; simpl in H;
    destruct (extend_cond a1 a2 a3 a4 st) eqn:Hc; try discriminate.
  - injection H as <-. exists st. repeat split; auto.
  - destruct (extend_body dz st) as [st'| |] eqn:Hb; try discriminate.
    rewrite bind_Ok in H.
    destruct (IH st' c1 H) as (st1 & Hs & Hst1 & Hrest).
    exists st1. split; [exact Hs|]. split.
    + right. destruct Hst1 as [-> | Hco]; [|exact Hco].
      destruct (body_coherent dz st st' Hb) as (H1 & H2 & _). auto.
    + intros f2 c2 H2. change (S f1 + f2)%nat with (S (f1 + f2)).
      rewrite (extend_loop_pass _ _ _ _ _ _ st st' (Hmono _ Hc) Hb).
      apply Hrest; exact H2.
  - injection H as <-. exists st. repeat split; auto.
    intros f2 c2 H2. rewrite Nat.add_comm.
    apply extend_loop_more_fuel; exact H2.
Qed.

(** X4.  Integration can be resumed: when a call of [extend] is followed by
    a second call with the same step and bounds that are at least those of
    the first, the object after the two calls is the object a single call
    with the bounds of the second returns. *)
Theorem extend_resumes (f1 f2 : nat) (c c1 c2 : Cosmology)
    (a_DL a_Dc a_z a_Vc b_DL b_Dc b_z b_Vc : ext_real) (dz : R) :
  bound_le a_DL b_DL -> bound_le a_Dc b_Dc ->
  bound_le a_z b_z -> bound_le a_Vc b_Vc ->
  extend f1 c a_DL a_Dc a_z a_Vc dz = Ok c1 ->
  extend f2 c1 b_DL b_Dc b_z b_Vc dz = Ok c2 ->
  extend (f1 + f2) c b_DL b_Dc b_z b_Vc dz = Ok c2.
Proof.
  intros B1 B2 B3 B4 Hfirst Hsecond.
  unfold extend in Hfirst |- *.
  destruct (last_item (self_z c)) as [z| |] eqn:Ez; try discriminate.
  destruct (last_item (self_Dc c)) as [d| |] eqn:Ed; try discriminate.
  destruct (last_item (self_Vc c)) as [v| |] eqn:Ev; try discriminate.
  rewrite !bind_Ok in Hfirst |- *.
  destruct (loop_then_loop a_DL a_Dc a_z a_Vc b_DL b_Dc b_z b_Vc dz
              (fun st => extend_cond_mono _ _ _ _ _ _ _ _ st B1 B2 B3 B4)
              f1 _ c1 Hfirst) as (st1 & Hs & Hst1 & Hrest).
  apply Hrest. clear Hrest Hfirst. subst c1. unfold extend in Hsecond.
  destruct Hst1 as [-> | [(Hz & Hd & Hv) HDL]].
  - cbn [ls_self] in Hsecond. rewrite Ez, Ed, Ev, !bind_Ok in Hsecond.
    exact Hsecond.
  - rewrite Hz, Hd, Hv, !bind_Ok, <- HDL in Hsecond.
    destruct st1; exact Hsecond.
Qed.

(** ** The grid of redshifts *)

Lemma grid_S (zl dz : R) (n : nat) :
  np_append (grid zl dz n) (zl + INR n * dz + dz) = grid zl dz (S n).
Proof.
  unfold grid, np_append. rewrite seq_S, map_app. cbn [map].
  f_equal. f_equal. change (1 + n)%nat with (S n). rewrite S_INR. ring.
Qed.

Lemma extend_loop_grid (c : Cosmology) (zl dz : R)
    (max_DL max_Dc max_z max_Vc : ext_real) (fuel : nat) (st : loop_state)
    (c' : Cosmology) :
  ls_self st = c -> ls_z st = zl -> last_item (self_z c) = Ok zl ->
  extend_loop fuel max_DL max_Dc max_z max_Vc dz st = Ok c' ->
  exists n,
    self_z c' = self_z c ++ grid zl dz n
    /\ last_item (self_z c') = Ok (zl + INR n * dz).
Proof.
  intros Hs Hz Hzl Hl.
  destruct (extend_loop_invariant
              (fun s =>
                 exists n,
                   self_z (ls_self s) = self_z c ++ grid zl dz n
                   /\ ls_z s = zl + INR n * dz
                   /\ last_item (self_z (ls_self s)) = Ok (ls_z s))
              max_DL max_Dc max_z max_Vc dz) with (fuel := fuel) (st := st)
              (c' := c')
    as (st' & (n & Hg & Hn & Hlast) & <- & _); auto.
  - intros s s' (n & Hg & Hn & _) Hb.
    destruct (extend_body_inv dz s s' Hb) as (v & E & _). rewrite E.
    cbn [ls_self ls_z set_arrays self_z]. exists (S n).
    rewrite Hg, Hn, <- grid_S. unfold np_append. rewrite <- app_assoc.
    split; [reflexivity|]. split; [rewrite S_INR; ring|].
    rewrite app_assoc. apply (last_item_app _ (zl + INR n * dz + dz)).
  - exists 0%nat. rewrite Hs. unfold grid. simpl. rewrite app_nil_r.
    split; [reflexivity|]. split; [lra|]. rewrite Hz. exact Hzl.
  - exists n. split; [exact Hg|]. rewrite Hlast, Hn. reflexivity.
Qed.

(** X5.  The redshifts a call of [extend] appends form a regular grid: they
    are [zl + dz], [zl + 2 dz], ..., [zl + n dz], where [zl] is the last
    redshift before the call and [n] the number of passes. *)
Theorem extend_appends_grid (fuel : nat) (c c' : Cosmology)
    (max_DL max_Dc max_z max_Vc : ext_real) (dz zl : R) :
  extend fuel c max_DL max_Dc max_z max_Vc dz = Ok c' ->
  last_item (self_z c) = Ok zl ->
  exists n,
    self_z c' = self_z c ++ grid zl dz n
    /\ last_item (self_z c') = Ok (zl + INR n * dz).
Proof.
  intros Hrun Hzl.
  destruct (extend_start _ _ _ _ _ _ _ _ Hrun)
    as (st & Hs & (Hz & _) & _ & Hl).
  rewrite Hs, Hzl in Hz. injection Hz as Hz.
  apply (extend_loop_grid c zl dz max_DL max_Dc max_z max_Vc fuel st c');
    [exact Hs | symmetry; exact Hz | exact Hzl | exact Hl].
Qed.

(** X6.  In exact arithmetic, for every target [m] above the last redshift
    [zl] and every positive step, [extend(max_z=m, dz=dz)] returns; it
    appends [n >= 1] grid points, where [n] is the least number with
    [zl + n dz >= m].  On binary64 numbers the sums [z + dz] are rounded:
    the count of passes can then differ (see [default_table_on_doubles]),
    and a step below the rounding unit of [zl] leaves [z] where it is. *)
Theorem extend_max_z_returns (c : Cosmology) (zl m dz : R) :
  well_formed c ->
  last_item (self_z c) = Ok zl ->
  zl < m -> 0 < dz ->
  exists fuel n c',
    extend fuel c NegInf NegInf (Fin m) NegInf dz = Ok c'
    /\ self_z c' = self_z c ++ grid zl dz n
    /\ (1 <= n)%nat
    /\ zl + INR n * dz - dz < m <= zl + INR n * dz.
Proof.
  intros Hwf Hzl Hlt Hdz.
  destruct (extend_reaches_max_z c zl m dz Hwf Hzl Hlt Hdz)
    as (fuel & c' & zl' & Hrun & _ & Hzl' & Hr).
  destruct (extend_start _ _ _ _ _ _ _ _ Hrun)
    as (st & Hs & (Hz & _) & _ & Hl).
  rewrite Hs, Hzl in Hz. injection Hz as Hz.
  destruct (extend_loop_grid c zl dz _ _ _ _ fuel st c' Hs (eq_sym Hz) Hzl Hl)
    as (n & Hg & Hn).
  rewrite Hzl' in Hn. injection Hn as Hn.
  exists fuel, n, c'. split; [exact Hrun|]. split; [exact Hg|].
  split; [|lra].
  destruct n as [|n]; [|lia]. simpl in Hn. lra.
Qed.

(** ** The expansion rate of a valid model *)

Lemma grown_table_monotone (Ho Om Or OL : R) (u : string)
    (c0 c : Cosmology) :
  0 < Ho -> 0 <= Om -> 0 <= Or -> 0 <= OL -> Om + Or + OL = 1 ->
  __init__ Ho Om Or OL u = Ok c0 ->
  grown c0 c ->
  table_monotone c.
Proof.
  intros HHo Hm Hr Hl Hsum Hinit Hg.
  apply (grown_monotone c0); [|exact Hg].
  eapply init_monotone; [..|exact Hinit]; assumption.
Qed.

Lemma radicand_mono (c : Cosmology) (z1 z2 : R) :
  valid_parameters c -> 0 <= z1 <= z2 -> radicand c z1 <= radicand c z2.
Proof.
  intros (_ & _ & Hm & Hr & Hl & _ & Hk & _) Hz. unfold radicand.
  rewrite Hk.
  assert (H3 : (1 + z1) ^ 3 <= (1 + z2) ^ 3) by (apply pow_incr; lra).
  assert (H4 : (1 + z1) ^ 4 <= (1 + z2) ^ 4) by (apply pow_incr; lra).
  pose proof (Rmult_le_compat_l _ _ _ Hm H3).
  pose proof (Rmult_le_compat_l _ _ _ Hr H4).
  lra.
Qed.

Lemma z2E_sqrt_valid (c : Cosmology) (z : R) :
  valid_parameters c -> 0 <= z -> z2E c z = sqrt (radicand c z).
Proof.
  intros Hv Hz. pose proof (radicand_ge_1 c z Hv Hz).
  rewrite z2E_radicand. apply float_pow_half. lra.
Qed.

Lemma z2E_ge_1 (c : Cosmology) (z : R) :
  valid_parameters c -> 0 <= z -> 1 <= z2E c z.
Proof.
  intros Hv Hz. rewrite z2E_sqrt_valid by assumption.
  rewrite <- sqrt_1 at 1. apply sqrt_le_1_alt.
  apply radicand_ge_1; assumption.
Qed.

Lemma z2E_mono (c : Cosmology) (z1 z2 : R) :
  valid_parameters c -> 0 <= z1 <= z2 -> z2E c z1 <= z2E c z2.
Proof.
  intros Hv Hz. rewrite !z2E_sqrt_valid by (assumption || lra).
  apply sqrt_le_1_alt. apply radicand_mono; assumption.
Qed.

Lemma c_over_Ho_pos (c : Cosmology) :
  valid_parameters c -> 0 < self_c_over_Ho c.
Proof.
  intros (HHo & Hc & _). rewrite Hc. pose proof C_CGS_pos.
  apply Rdiv_lt_0_compat; assumption.
Qed.

Lemma dDcdz_antitone (c : Cosmology) (z1 z2 : R) :
  valid_parameters c -> 0 <= z1 <= z2 ->
  dDcdz c z2 false <= dDcdz c z1 false.
Proof.
  intros Hv Hz. unfold dDcdz, Rdiv.
  pose proof (c_over_Ho_pos c Hv).
  pose proof (z2E_ge_1 c z1 Hv ltac:(lra)).
  pose proof (z2E_mono c z1 z2 Hv Hz).
  apply Rmult_le_compat_l; [lra|]. apply Rinv_le_contravar; lra.
Qed.

Lemma dDcdz_le_hubble (c : Cosmology) (z : R) :
  valid_parameters c -> 0 <= z -> dDcdz c z false <= self_c_over_Ho c.
Proof.
  intros Hv Hz. unfold dDcdz, Rdiv.
  pose proof (c_over_Ho_pos c Hv).
  pose proof (z2E_ge_1 c z Hv Hz).
  rewrite <- (Rmult_1_r (self_c_over_Ho c)) at 2.
  apply Rmult_le_compat_l; [lra|].
  rewrite <- Rinv_1. apply Rinv_le_contravar; lra.
Qed.

(** X7.  Every object the constructor returns has [z2E 0 = 1], so at
    redshift zero [dDcdz] is the Hubble distance [C_CGS / Ho], divided by
    [MPC_CGS] when the flag [mpc] is set. *)
Theorem init_normalised (Ho Om Or OL : R) (u : string) (c : Cosmology) :
  __init__ Ho Om Or OL u = Ok c ->
  z2E c 0 = 1
  /\ dDcdz c 0 false = C_CGS / Ho
  /\ dDcdz c 0 true = C_CGS / Ho / MPC_CGS.
Proof.
  intros Hinit. unfold __init__ in Hinit.
  destruct (Req_dec_T Ho 0); [discriminate|].
  destruct (Req_dec_T (1.0 - (Om + Or + OL)) 0); [|discriminate].
  injection Hinit as <-.
  assert (HE : z2E (mkCosmology Ho (C_CGS / Ho)
                      (if String.eqb u "mpc" then MPC_CGS else 1.0)
                      Om Or OL (1.0 - (Om + Or + OL)) [0.0] [0.0] [0.0]) 0
               = 1).
  { rewrite z2E_radicand. unfold radicand.
    cbn [self_OmegaLambda self_OmegaKappa self_OmegaMatter
           self_OmegaRadiation].
    match goal with
    | |- float_pow ?r _ = _ => replace r with 1 by (simpl; lra)
    end.
    apply float_pow_1. }
  split; [exact HE|].
  unfold dDcdz. rewrite HE. cbn [self_c_over_Ho].
  pose proof MPC_CGS_pos.
  split; field; [assumption|split; [assumption|lra]].
Qed.

(** X8.  For valid parameters ([Ho > 0], non-negative densities that sum
    to 1) and [0 <= z1 <= z2]: [z2E] is at least 1 and non-decreasing, and
    [dDcdz] is positive, non-increasing and at most the Hubble distance
    [C_CGS / Ho]. *)
Theorem expansion_rate_bounds (c : Cosmology) (z1 z2 : R) :
  valid_parameters c ->
  0 <= z1 <= z2 ->
  1 <= z2E c z1 <= z2E c z2
  /\ 0 < dDcdz c z2 false <= dDcdz c z1 false
  /\ dDcdz c z1 false <= C_CGS / self_Ho c.
Proof.
  intros Hv Hz. split; [split|split; [split|]].
  - apply z2E_ge_1; [exact Hv|lra].
  - apply z2E_mono; assumption.
  - apply dDcdz_pos; [exact Hv|lra].
  - apply dDcdz_antitone; assumption.
  - destruct Hv as (H1 & Hc & H2). rewrite <- Hc.
    apply dDcdz_le_hubble; [exact (conj H1 (conj Hc H2))|lra].
Qed.

(** ** Distances against the Hubble law *)

Lemma Forall2_last_item (P : R -> R -> Prop) (a b : list R) (x y : R) :
  Forall2 P a b -> last_item a = Ok x -> last_item b = Ok y -> P x y.
Proof.
  intros HF. revert x y.
  induction HF as [|u v a b Huv HF IH]; intros x y Ha Hb; [discriminate|].
  destruct HF as [|u' v' a b Huv' HF].
  - simpl in Ha, Hb. injection Ha as <-. injection Hb as <-. exact Huv.
  - rewrite last_item_skip in Ha, Hb. apply IH; assumption.
Qed.

Lemma Forall2_np_append (P : R -> R -> Prop) (a b : list R) (x y : R) :
  Forall2 P a b -> P x y -> Forall2 P (np_append a x) (np_append b y).
Proof.
  intros HF Hxy. unfold np_append. apply Forall2_app; [exact HF|].
  constructor; [exact Hxy|constructor].
Qed.

Lemma body_below_hubble (k dz : R) (st st' : loop_state) :
  0 < dz ->
  monotone_invariant st /\ self_c_over_Ho (ls_self st) = k
  /\ Forall2 (fun z d => 0 <= d <= k * z)
       (self_z (ls_self st)) (self_Dc (ls_self st)) ->
  extend_body dz st = Ok st' ->
  monotone_invariant st' /\ self_c_over_Ho (ls_self st') = k
  /\ Forall2 (fun z d => 0 <= d <= k * z)
       (self_z (ls_self st')) (self_Dc (ls_self st')).
Proof.
  intros Hdz (Hmono & Hk & HF) Hb.
  pose proof (body_monotone dz st st' Hdz Hmono Hb) as Hmono'.
  split; [exact Hmono'|].
  destruct Hmono as [(Hz & Hd & _) (Hsh & Hval & _)].
  destruct Hsh as (_ & _ & _ & _ & _ & Hzlast). specialize (Hzlast _ Hz).
  destruct Hmono' as [(_ & Hd' & _) (_ & _ & _ & _ & Hdlast')].
  specialize (Hdlast' _ Hd').
  pose proof (Forall2_last_item _ _ _ _ _ HF Hz Hd) as [_ Hle].
  pose proof (dDcdz_le_hubble _ (ls_z st) Hval Hzlast) as H1.
  pose proof (dDcdz_le_hubble _ (ls_z st + dz) Hval ltac:(lra)) as H2.
  rewrite Hk in H1, H2.
  destruct (extend_body_inv dz st st' Hb) as (v & E & HDc).
  remember (dDcdz (ls_self st) (ls_z st) false) as d1 eqn:E1.
  remember (dDcdz (ls_self st) (ls_z st + dz) false) as d2 eqn:E2.
  clear E1 E2. rewrite E.
  cbn [ls_self set_arrays self_c_over_Ho self_z self_Dc].
  split; [exact Hk|].
  apply Forall2_np_append; [exact HF|]. split; [exact Hdlast'|].
  rewrite HDc. nra.
Qed.

Lemma grown_below_hubble (k : R) (c0 c : Cosmology) :
  table_monotone c0 -> self_c_over_Ho c0 = k ->
  Forall2 (fun z d => 0 <= d <= k * z) (self_z c0) (self_Dc c0) ->
  grown c0 c ->
  table_monotone c /\ self_c_over_Ho c = k
  /\ Forall2 (fun z d => 0 <= d <= k * z) (self_z c) (self_Dc c).
Proof.
  intros Hm0 Hk0 HF0 Hg.
  induction Hg as [|c c' fuel b1 b2 b3 b4 dz _ IH Hdz Hrun]; [auto|].
  destruct IH as (Hm & Hk & HF).
  destruct (extend_start _ _ _ _ _ _ _ _ Hrun) as (st & <- & Hco & _ & Hl).
  destruct (extend_loop_invariant
              (fun s =>
                 monotone_invariant s /\ self_c_over_Ho (ls_self s) = k
                 /\ Forall2 (fun z d => 0 <= d <= k * z)
                      (self_z (ls_self s)) (self_Dc (ls_self s)))
              b1 b2 b3 b4 dz
              (fun s s' => body_below_hubble k dz s s' Hdz) fuel st c')
    as (st' & ([_ Hm'] & Hk' & HF') & <- & _); auto.
  split; [split; assumption|auto].
Qed.

(** X9.  In exact arithmetic, for valid parameters and positive steps
    every sample of the table lies on or below the Hubble law:
    [0 <= Dc_i <= (C_CGS / Ho) * z_i].  (On binary64 numbers a rounded
    redshift can fall short of its distance by a rounding unit, as in
    [Double.short_steps].) *)
Theorem distance_below_hubble_law (Ho Om Or OL : R) (u : string)
    (c0 c : Cosmology) :
  0 < Ho -> 0 <= Om -> 0 <= Or -> 0 <= OL -> Om + Or + OL = 1 ->
  __init__ Ho Om Or OL u = Ok c0 ->
  grown c0 c ->
  Forall2 (fun z d => 0 <= d <= C_CGS / Ho * z) (self_z c) (self_Dc c).
Proof.
  intros HHo Hm Hr Hl Hsum Hinit Hg.
  pose proof (init_monotone _ _ _ _ _ _ HHo Hm Hr Hl Hsum Hinit) as Hm0.
  rewrite init_flat_model in Hinit by lra. injection Hinit as <-.
  apply (grown_below_hubble (C_CGS / Ho) _ c Hm0); [reflexivity| |exact Hg].
  cbn [flat_model self_z self_Dc]. constructor; [|constructor]. lra.
Qed.

(** ** The model with [OmegaLambda = 1] *)



(** ** Queries at and between the samples *)

Lemma chain_nth_ge (l : list R) :
  forall a i x,
    chain Rlt (a :: l) -> nth_error (a :: l) i = Some x -> a <= x.
Proof.
  induction l as [|b l IH]; intros a i x Hc Hn.
  - destruct i as [|[|i]]; simpl in Hn; try discriminate.
    injection Hn as <-. lra.
  - destruct i as [|i]; simpl in Hn.
    + injection Hn as <-. lra.
    + destruct Hc as [Hab Hc]. specialize (IH b i x Hc Hn). lra.
Qed.

Lemma chain_nth_le_last (l : list R) :
  forall a i x,
    chain Rlt (a :: l) -> nth_error (a :: l) i = Some x -> x <= last l a.
Proof.
  induction l as [|b l IH]; intros a i x Hc Hn.
  - destruct i as [|[|i]]; simpl in Hn; try discriminate.
    injection Hn as <-. simpl. lra.
  - destruct i as [|i]; simpl in Hn.
    + injection Hn as <-. apply chain_lt_last_ge; exact Hc.
    + destruct Hc as [Hab Hc]. rewrite last_skip. apply (IH b i x Hc Hn).
Qed.

Lemma lin_at_right (a fa b fb : R) : a <> b -> lin b a fa b fb = fb.
Proof.
  intros Hne. unfold lin. destruct (Req_dec_T (b - a) 0); [lra|].
  field. lra.
Qed.

Lemma lin_mono (x1 x2 a fa b fb : R) :
  a < b -> fa < fb -> x1 <= x2 -> lin x1 a fa b fb <= lin x2 a fa b fb.
Proof.
  intros Hab Hf Hx. unfold lin.
  destruct (Req_dec_T (b - a) 0); [lra|].
  assert (H : (x1 - a) / (b - a) <= (x2 - a) / (b - a)).
  { unfold Rdiv. apply Rmult_le_compat_r; [|lra].
    apply Rlt_le, Rinv_0_lt_compat. lra. }
  nra.
Qed.

Lemma interp_seg_step (x a fa b fb c fc : R) (xs fs : list R) :
  interp_seg x a fa (b :: c :: xs) (fb :: fc :: fs)
  = if Rlt_dec x b then lin x a fa b fb
    else interp_seg x b fb (c :: xs) (fc :: fs).
Proof. reflexivity. Qed.

Lemma interp_seg_at_sample (xs fs : list R) :
  forall a fa i xi fi,
    length xs = length fs ->
    chain Rlt (a :: xs) ->
    nth_error (a :: xs) i = Some xi ->
    nth_error (fa :: fs) i = Some fi ->
    interp_seg xi a fa xs fs = fi.
Proof.
  revert fs. induction xs as [|b xs IH]; intros [|fb fs] a fa i xi fi Hlen Hc Hx Hf;
    try discriminate.
  - destruct i as [|[|i]]; simpl in Hx, Hf; try discriminate.
    injection Hf as <-. reflexivity.
  - destruct Hc as [Hab Hc].
    destruct xs as [|c xs]; destruct fs as [|fc fs]; try discriminate.
    + destruct i as [|[|[|i]]]; simpl in Hx, Hf; try discriminate.
      * injection Hx as <-. injection Hf as <-. simpl. apply lin_at_left.
      * injection Hx as <-. injection Hf as <-. simpl.
        apply lin_at_right. lra.
    + rewrite interp_seg_step. destruct i as [|i]; simpl in Hx, Hf.
      * injection Hx as <-. injection Hf as <-.
        destruct (Rlt_dec a b); [apply lin_at_left|lra].
      * pose proof (chain_nth_ge _ _ _ _ Hc Hx).
        destruct (Rlt_dec xi b); [lra|].
        apply (IH (fc :: fs) b fb i); auto.
Qed.

Lemma interp_at_sample (xs fs : list R) (a fa : R) (i : nat) (xi fi : R) :
  length xs = length fs ->
  chain Rlt (a :: xs) ->
  nth_error (a :: xs) i = Some xi ->
  nth_error (fa :: fs) i = Some fi ->
  interp xi (a :: xs) (fa :: fs) = Ok fi.
Proof.
  intros Hlen Hc Hx Hf. rewrite interp_cons by exact Hlen.
  pose proof (chain_nth_ge _ _ _ _ Hc Hx).
  pose proof (chain_nth_le_last _ _ _ _ Hc Hx).
  destruct (Rlt_dec (last xs a) xi); [lra|].
  destruct (Rlt_dec xi a); [lra|].
  f_equal. apply (interp_seg_at_sample xs fs a fa i); assumption.
Qed.

Lemma nth_error_map2 (f : R -> R -> R) (a b : list R) :
  forall i x y,
    nth_error a i = Some x -> nth_error b i = Some y ->
    nth_error (map2 f a b) i = Some (f x y).
Proof.
  revert b. induction a as [|u a IH]; intros [|v b] [|i] x y Ha Hb;
    simpl in *; try discriminate.
  - injection Ha as <-. injection Hb as <-. reflexivity.
  - apply IH; assumption.
Qed.

Lemma StronglySorted_chain (P : R -> R -> Prop) (l : list R) :
  StronglySorted P l -> chain P l.
Proof.
  induction 1 as [|a l Hs IH Hall]; [exact I|].
  destruct l as [|b l]; [exact I|].
  split; [|exact IH]. inversion Hall; assumption.
Qed.

(** X11.  On a table whose redshifts are strictly increasing, a query at
    a tabulated redshift returns the tabulated value (the interpolation
    being exact arithmetic): [z2Dc z_i = Dc_i] and
    [z2DL z_i = Dc_i * (1 + z_i) / unit_mod] for the sample of every index
    [i].  The order of the redshifts is a hypothesis: [extend] builds it
    when no sum [z + dz] is rounded back to [z]. *)
Theorem queries_at_samples (c : Cosmology) (i : nat) (zi di : R) :
  well_formed c ->
  StronglySorted Rlt (self_z c) ->
  nth_error (self_z c) i = Some zi ->
  nth_error (self_Dc c) i = Some di ->
  z2Dc c zi = Ok di
  /\ z2DL c zi = Ok (di * (1 + zi) / self_unit_mod c).
Proof.
  intros (_ & Hl1 & _) Hs Hz Hd.
  pose proof (StronglySorted_chain _ _ Hs) as Hcz.
  pose proof (nth_error_map2 (fun d z => d * (1 + z)) _ _ _ _ _ Hd Hz) as HDL.
  unfold z2Dc, z2DL, DL in *.
  destruct (self_z c) as [|a xs]; [destruct i; discriminate|].
  destruct (self_Dc c) as [|d0 ds]; [destruct i; discriminate|].
  simpl in Hl1. injection Hl1 as Hl1. cbn [map2] in HDL |- *.
  split.
  - apply (interp_at_sample xs ds a d0 i); assumption.
  - rewrite (interp_at_sample xs _ a _ i zi (di * (1 + zi)));
      [reflexivity| |exact Hcz|exact Hz|exact HDL].
    rewrite length_map2; congruence.
Qed.

Lemma interp_range (x a fa : R) (xs fs : list R) :
  length xs = length fs ->
  chain Rlt (a :: xs) -> chain Rlt (fa :: fs) ->
  exists v, interp x (a :: xs) (fa :: fs) = Ok v /\ fa <= v <= last fs fa.
Proof.
  intros Hlen Hx Hf. rewrite interp_cons by exact Hlen.
  pose proof (chain_lt_last_ge _ _ Hf).
  eexists. split; [reflexivity|].
  destruct (Rlt_dec (last xs a) x); [lra|].
  destruct (Rlt_dec x a); [lra|].
  apply (interp_seg_inverse xs fs a fa x Hlen Hx Hf). lra.
Qed.

Lemma interp_seg_mono (xs fs : list R) :
  forall a fa x1 x2,
    length xs = length fs ->
    chain Rlt (a :: xs) -> chain Rlt (fa :: fs) ->
    a <= x1 -> x1 <= x2 -> x2 <= last xs a ->
    interp_seg x1 a fa xs fs <= interp_seg x2 a fa xs fs.
Proof.
  revert fs. induction xs as [|b xs IH]; intros [|fb fs] a fa x1 x2 Hlen Hx Hf H1 H12 H2;
    try discriminate.
  - simpl. lra.
  - destruct Hx as [Hab Hx]. destruct Hf as [Hfab Hf].
    rewrite last_skip in H2.
    destruct xs as [|c xs]; destruct fs as [|fc fs]; try discriminate.
    + simpl. apply lin_mono; assumption.
    + rewrite !interp_seg_step.
      destruct (Rlt_dec x1 b) as [L1|L1]; destruct (Rlt_dec x2 b) as [L2|L2];
        try lra.
      * apply lin_mono; assumption.
      * destruct (lin_bounds x1 a fa b fb Hab Hfab) as [[_ Hup] _]; [lra|].
        destruct (interp_seg_inverse (c :: xs) (fc :: fs) b fb x2)
          as [[Hlow _] _]; [simpl in *; congruence | assumption.. | lra |].
        lra.
      * apply IH; [simpl in *; congruence | assumption.. | lra | lra | lra].
Qed.

Lemma interp_mono (x1 x2 a fa : R) (xs fs : list R) :
  length xs = length fs ->
  chain Rlt (a :: xs) -> chain Rlt (fa :: fs) ->
  x1 <= x2 ->
  exists v1 v2,
    interp x1 (a :: xs) (fa :: fs) = Ok v1
    /\ interp x2 (a :: xs) (fa :: fs) = Ok v2
    /\ v1 <= v2.
Proof.
  intros Hlen Hx Hf H12.
  destruct (interp_range x1 a fa xs fs Hlen Hx Hf) as (v1 & E1 & R1).
  destruct (interp_range x2 a fa xs fs Hlen Hx Hf) as (v2 & E2 & R2).
  exists v1, v2. split; [exact E1|]. split; [exact E2|].
  rewrite interp_cons in E1, E2 by exact Hlen.
  injection E1 as E1. injection E2 as E2.
  destruct (Rlt_dec (last xs a) x2); [lra|].
  destruct (Rlt_dec (last xs a) x1); [lra|].
  destruct (Rlt_dec x1 a); [lra|].
  destruct (Rlt_dec x2 a); [lra|].
  rewrite <- E1, <- E2. apply interp_seg_mono; auto; lra.
Qed.

(** The arrays of a table with valid parameters, entry by entry. *)
Lemma monotone_arrays (c : Cosmology) :
  table_monotone c ->
  exists xs ds,
    self_z c = 0 :: xs /\ self_Dc c = 0 :: ds
    /\ DL c = 0 * (1 + 0) :: map2 (fun d z => d * (1 + z)) ds xs
    /\ length xs = length ds
    /\ length (map2 (fun d z => d * (1 + z)) ds xs) = length xs
    /\ chain Rlt (0 :: xs) /\ chain Rlt (0 :: ds)
    /\ chain Rlt (0 * (1 + 0) :: map2 (fun d z => d * (1 + z)) ds xs)
    /\ 0 < self_unit_mod c.
Proof.
  intros (((_ & Hl1 & _) & Hcz & Hhz & Hhd & _ & _) & Hval & Hcd & _ & _).
  destruct Hval as (_ & _ & _ & _ & _ & _ & _ & Hu).
  unfold DL.
  destruct (self_z c) as [|a xs]; [discriminate|].
  destruct (self_Dc c) as [|d0 ds]; [discriminate|].
  injection Hhz as ->. injection Hhd as ->.
  simpl in Hl1. injection Hl1 as Hl1.
  exists xs, ds. repeat split; auto.
  - rewrite length_map2; congruence.
  - apply (chain_DL xs ds 0 0); auto; lra.
Qed.

Lemma monotone_lasts (c : Cosmology) (xs ds : list R) (zl dl : R) :
  self_z c = 0 :: xs -> self_Dc c = 0 :: ds -> length xs = length ds ->
  last_item (self_z c) = Ok zl -> last_item (self_Dc c) = Ok dl ->
  last xs 0 = zl /\ last ds 0 = dl
  /\ last (map2 (fun d z => d * (1 + z)) ds xs) (0 * (1 + 0))
     = dl * (1 + zl).
Proof.
  intros Ez Ed Hlen Hzl Hdl. rewrite Ez in Hzl. rewrite Ed in Hdl.
  pose proof (last_item_map2 (fun d z => d * (1 + z)) (0 :: ds) (0 :: xs)
                dl zl ltac:(simpl; congruence) Hdl Hzl) as HDL.
  injection Hzl as Hzl. injection Hdl as Hdl. injection HDL as HDL. auto.
Qed.

(** X12.  For valid parameters and positive steps no query leaves the
    table: whatever the argument, [z2Dc] is between 0 and the last [Dc],
    [z2DL] between 0 and the last [DL] (in the unit of the object), and
    [DL2z] between 0 and the last redshift. *)
Theorem queries_within_table (Ho Om Or OL : R) (u : string)
    (c0 c : Cosmology) (zl dl : R) :
  0 < Ho -> 0 <= Om -> 0 <= Or -> 0 <= OL -> Om + Or + OL = 1 ->
  __init__ Ho Om Or OL u = Ok c0 ->
  grown c0 c ->
  last_item (self_z c) = Ok zl ->
  last_item (self_Dc c) = Ok dl ->
  (forall x, exists v, z2Dc c x = Ok v /\ 0 <= v <= dl)
  /\ (forall x, exists v,
        z2DL c x = Ok v /\ 0 <= v <= dl * (1 + zl) / self_unit_mod c)
  /\ (forall d, exists v, DL2z c d = Ok v /\ 0 <= v <= zl).
Proof.
  intros HHo Hm Hr Hl Hsum Hinit Hg Hzl Hdl.
  pose proof (grown_table_monotone _ _ _ _ _ _ _ HHo Hm Hr Hl Hsum Hinit Hg)
    as Hmono.
  destruct (monotone_arrays c Hmono)
    as (xs & ds & Ez & Ed & EDL & Hlen & HlenDL & Hcz & Hcd & HcDL & Hu).
  destruct (monotone_lasts c xs ds zl dl Ez Ed Hlen Hzl Hdl)
    as (Lz & Ld & LDL).
  unfold z2Dc, z2DL, DL2z. rewrite EDL, Ez, Ed.
  split; [|split].
  - intros x. destruct (interp_range x 0 0 xs ds Hlen Hcz Hcd) as (v & E & R).
    exists v. split; [exact E|]. rewrite <- Ld. exact R.
  - intros x.
    destruct (interp_range x 0 (0 * (1 + 0)) xs _ (eq_sym HlenDL) Hcz HcDL)
      as (v & E & R).
    rewrite E, bind_Ok. eexists. split; [reflexivity|].
    rewrite LDL in R. unfold Rdiv.
    assert (0 < / self_unit_mod c) by (apply Rinv_0_lt_compat; exact Hu).
    split; [apply Rmult_le_pos; lra|].
    apply Rmult_le_compat_r; lra.
  - intros d.
    destruct (interp_range (d * self_unit_mod c) (0 * (1 + 0)) 0 _ xs
                HlenDL HcDL Hcz) as (v & E & R).
    exists v. split; [exact E|]. rewrite <- Lz. exact R.
Qed.

(** X13.  For valid parameters and positive steps the three queries are
    monotone: a larger redshift never gives a smaller [z2Dc] or [z2DL], and
    a larger luminosity distance never gives a smaller [DL2z]. *)
Theorem queries_monotone (Ho Om Or OL : R) (u : string)
    (c0 c : Cosmology) (x1 x2 : R) :
  0 < Ho -> 0 <= Om -> 0 <= Or -> 0 <= OL -> Om + Or + OL = 1 ->
  __init__ Ho Om Or OL u = Ok c0 ->
  grown c0 c ->
  x1 <= x2 ->
  (exists v1 v2, z2Dc c x1 = Ok v1 /\ z2Dc c x2 = Ok v2 /\ v1 <= v2)
  /\ (exists v1 v2, z2DL c x1 = Ok v1 /\ z2DL c x2 = Ok v2 /\ v1 <= v2)
  /\ (exists v1 v2, DL2z c x1 = Ok v1 /\ DL2z c x2 = Ok v2 /\ v1 <= v2).
Proof.
  intros HHo Hm Hr Hl Hsum Hinit Hg H12.
  pose proof (grown_table_monotone _ _ _ _ _ _ _ HHo Hm Hr Hl Hsum Hinit Hg)
    as Hmono.
  destruct (monotone_arrays c Hmono)
    as (xs & ds & Ez & Ed & EDL & Hlen & HlenDL & Hcz & Hcd & HcDL & Hu).
  unfold z2Dc, z2DL, DL2z. rewrite EDL, Ez, Ed.
  split; [|split].
  - apply interp_mono; assumption.
  - destruct (interp_mono x1 x2 0 (0 * (1 + 0)) xs _ (eq_sym HlenDL)
                Hcz HcDL H12) as (v1 & v2 & E1 & E2 & Hv).
    rewrite E1, E2, !bind_Ok. do 2 eexists.
    split; [reflexivity|]. split; [reflexivity|].
    unfold Rdiv. apply Rmult_le_compat_r; [|exact Hv].
    apply Rlt_le, Rinv_0_lt_compat; exact Hu.
  - apply interp_mono; try assumption.
    apply Rmult_le_compat_r; lra.
Qed.

(** X14.  The round trip in the other direction: for valid parameters and
    positive steps, [z2DL (DL2z d)] is [d] for every luminosity distance
    [d] that, in the base unit, lies between 0 and the last tabulated
    [DL]. *)
Theorem roundtrip_z (Ho Om Or OL : R) (u : string)
    (c0 c : Cosmology) (d zl dl : R) :
  0 < Ho -> 0 <= Om -> 0 <= Or -> 0 <= OL -> Om + Or + OL = 1 ->
  __init__ Ho Om Or OL u = Ok c0 ->
  grown c0 c ->
  last_item (self_z c) = Ok zl ->
  last_item (self_Dc c) = Ok dl ->
  0 <= d * self_unit_mod c <= dl * (1 + zl) ->
  exists z, DL2z c d = Ok z /\ z2DL c z = Ok d.
Proof.
  intros HHo Hm Hr Hl Hsum Hinit Hg Hzl Hdl Hd.
  pose proof (grown_table_monotone _ _ _ _ _ _ _ HHo Hm Hr Hl Hsum Hinit Hg)
    as Hmono.
  destruct (monotone_arrays c Hmono)
    as (xs & ds & Ez & Ed & EDL & Hlen & HlenDL & Hcz & Hcd & HcDL & Hu).
  destruct (monotone_lasts c xs ds zl dl Ez Ed Hlen Hzl Hdl)
    as (Lz & Ld & LDL).
  unfold z2DL, DL2z. rewrite EDL, Ez.
  destruct (interp_roundtrip (d * self_unit_mod c) (0 * (1 + 0)) 0 _ xs
              HlenDL HcDL Hcz) as (z & Hz & Hback).
  { rewrite LDL. lra. }
  exists z. split; [exact Hz|]. rewrite Hback, bind_Ok. f_equal.
  field. lra.
Qed.

(** X15.  In exact arithmetic, for valid parameters and positive steps the
    luminosity distances [DL = Dc * (1 + z)] of the table start at 0 and
    are strictly increasing, one for each redshift; this is the order
    [DL2z] interpolates against.  (On binary64 numbers the products are
    rounded and two neighbours can be equal.) *)
Theorem DL_strictly_increasing (Ho Om Or OL : R) (u : string)
    (c0 c : Cosmology) :
  0 < Ho -> 0 <= Om -> 0 <= Or -> 0 <= OL -> Om + Or + OL = 1 ->
  __init__ Ho Om Or OL u = Ok c0 ->
  grown c0 c ->
  StronglySorted Rlt (DL c)
  /\ hd_error (DL c) = Some 0
  /\ length (DL c) = length (self_z c)
  /\ (forall i z d,
         nth_error (self_z c) i = Some z ->
         nth_error (self_Dc c) i = Some d ->
         nth_error (DL c) i = Some (d * (1 + z))).
Proof.
  intros HHo Hm Hr Hl Hsum Hinit Hg.
  pose proof (grown_table_monotone _ _ _ _ _ _ _ HHo Hm Hr Hl Hsum Hinit Hg)
    as Hmono.
  destruct (monotone_arrays c Hmono)
    as (xs & ds & Ez & Ed & EDL & Hlen & HlenDL & Hcz & Hcd & HcDL & Hu).
  split; [|split; [|split]].
  - rewrite EDL. apply chain_StronglySorted; [apply Rlt_Transitive|exact HcDL].
  - rewrite EDL. simpl. f_equal. ring.
  - rewrite EDL, Ez. simpl. congruence.
  - intros i z d Hz Hd. unfold DL.
    apply (nth_error_map2 (fun d z => d * (1 + z))); assumption.
Qed.

(** ** Strictly growing distance and volume *)

Lemma dVcdz_positive (c : Cosmology) (z Dc v : R) :
  well_formed c -> 0 < Dc -> 0 < dDcdz c z false ->
  dVcdz c z Dc = Ok v -> 0 < v.
Proof.
  intros Hwf HD Hd Hv.
  destruct (dVcdz_value c z Dc Hwf) as (tab & _ & E).
  rewrite Hv in E. injection E as ->.
  rewrite where_nonzero by lra.
  pose proof PI_RGT_0. assert (0 < Dc ^ 2) by (apply pow_lt; exact HD).
  apply Rmult_lt_0_compat; [|exact Hd].
  apply Rmult_lt_0_compat; lra.
Qed.

Lemma body_strict (dz : R) (st st' : loop_state) :
  0 < dz ->
  monotone_invariant st /\ chain Rlt (self_Vc (ls_self st)) ->
  extend_body dz st = Ok st' ->
  monotone_invariant st' /\ chain Rlt (self_Vc (ls_self st')).
Proof.
  intros Hdz [Hmono Hcv] Hb.
  pose proof (body_monotone dz st st' Hdz Hmono Hb) as Hmono'.
  split; [exact Hmono'|].
  destruct Hmono as [(Hz & Hd & Hv) (Hsh & Hval & _ & _ & Hdlast)].
  pose proof Hsh as (Hwf & _ & _ & _ & _ & Hzlast).
  specialize (Hzlast _ Hz). specialize (Hdlast _ Hd).
  destruct (extend_body_value dz st Hwf) as (dV & dV' & H1 & H2 & Hbv).
  cbv zeta in H1, H2, Hbv.
  pose proof (dDcdz_pos _ (ls_z st) Hval Hzlast) as Hp1.
  pose proof (dDcdz_pos _ (ls_z st + dz) Hval ltac:(lra)) as Hp2.
  pose proof (dVcdz_nonneg _ _ _ _ Hp1 H1) as Hn1.
  assert (Hn2 : 0 < dV').
  { refine (dVcdz_positive _ _ _ _ Hwf _ Hp2 H2).
    assert (0 < 0.5 * (dDcdz (ls_self st) (ls_z st) false
                       + dDcdz (ls_self st) (ls_z st + dz) false) * dz)
      by (apply Rmult_lt_0_compat; lra).
    lra. }
  clear H1 H2 Hp1 Hp2.
  remember (dDcdz (ls_self st) (ls_z st) false) as d1 eqn:E1.
  remember (dDcdz (ls_self st) (ls_z st + dz) false) as d2 eqn:E2.
  clear E1 E2.
  rewrite Hbv in Hb. injection Hb as <-.
  cbn [ls_self set_arrays self_Vc].
  apply chain_snoc; [exact Hcv|]. intros v Hv'.
  rewrite Hv in Hv'. injection Hv' as <-.
  assert (0 < 0.5 * (dV + dV') * dz) by (apply Rmult_lt_0_compat; lra).
  lra.
Qed.

(** X16.  In exact arithmetic, for valid parameters and positive steps the
    comoving distances and the comoving volumes of the table are strictly
    increasing, not only non-decreasing.  (On binary64 numbers an
    increment below the rounding unit of the sum is lost, and the arrays
    are then non-decreasing only.) *)
Theorem distance_and_volume_strictly_increase (Ho Om Or OL : R) (u : string)
    (c0 c : Cosmology) :
  0 < Ho -> 0 <= Om -> 0 <= Or -> 0 <= OL -> Om + Or + OL = 1 ->
  __init__ Ho Om Or OL u = Ok c0 ->
  grown c0 c ->
  StronglySorted Rlt (self_Dc c) /\ StronglySorted Rlt (self_Vc c).
Proof.
  intros HHo Hm Hr Hl Hsum Hinit Hg.
  pose proof (init_monotone _ _ _ _ _ _ HHo Hm Hr Hl Hsum Hinit) as Hm0.
  rewrite init_flat_model in Hinit by lra. injection Hinit as <-.
  assert (H : table_monotone c /\ chain Rlt (self_Vc c)).
  { induction Hg as [|c c' fuel b1 b2 b3 b4 dz _ IH Hdz Hrun].
    - split; [exact Hm0|exact I].
    - destruct IH as (Hmono & Hcv).
      destruct (extend_start _ _ _ _ _ _ _ _ Hrun)
        as (st & <- & Hco & _ & Hl').
      destruct (extend_loop_invariant
                  (fun s => monotone_invariant s
                            /\ chain Rlt (self_Vc (ls_self s)))
                  b1 b2 b3 b4 dz
                  (fun s s' => body_strict dz s s' Hdz) fuel st c')
        as (st' & ([_ Hmono'] & Hcv') & <- & _); auto.
      split; [split; assumption|exact Hcv]. }
  destruct H as ((_ & _ & Hcd & _) & Hcv).
  split; apply chain_StronglySorted; auto using Rlt_Transitive.
Qed.

(** ** The volume element at a tabulated redshift *)

Lemma z2Dc_at_sample (c : Cosmology) (i : nat) (zi di : R) :
  well_formed c ->
  chain Rlt (self_z c) ->
  nth_error (self_z c) i = Some zi ->
  nth_error (self_Dc c) i = Some di ->
  z2Dc c zi = Ok di.
Proof.
  intros (_ & Hl1 & _) Hcz Hz Hd. unfold z2Dc.
  destruct (self_z c) as [|a xs]; [destruct i; discriminate|].
  destruct (self_Dc c) as [|d0 ds]; [destruct i; discriminate|].
  simpl in Hl1. injection Hl1 as Hl1.
  apply (interp_at_sample xs ds a d0 i); assumption.
Qed.

Lemma where_same (Dc : R) : where_ Dc Dc Dc = Dc.
Proof. unfold where_. destruct (Req_dec_T Dc 0); reflexivity. Qed.

Lemma where_zero (tab : R) : where_ 0 0 tab = tab.
Proof. unfold where_. destruct (Req_dec_T 0 0); [reflexivity|lra]. Qed.

(** X17.  On a table whose redshifts are strictly increasing, the default
    argument [Dc = 0] of [dVcdz] and [logdVcdz] stands, at a tabulated
    redshift, for the tabulated distance (the interpolation being exact
    arithmetic): [dVcdz z_i] is [4 * PI * Dc_i ^ 2 * dDcdz z_i], the value
    of [dVcdz z_i Dc_i], and [logdVcdz z_i] is [logdVcdz z_i Dc_i].  The
    order of the redshifts is a hypothesis: [extend] builds it when no
    sum [z + dz] is rounded back to [z]. *)
Theorem volume_element_at_samples (c : Cosmology) (i : nat) (zi di : R) :
  well_formed c ->
  StronglySorted Rlt (self_z c) ->
  nth_error (self_z c) i = Some zi ->
  nth_error (self_Dc c) i = Some di ->
  dVcdz c zi 0 = Ok (4 * PI * di ^ 2 * dDcdz c zi false)
  /\ dVcdz c zi di = dVcdz c zi 0
  /\ logdVcdz c zi di = logdVcdz c zi 0.
Proof.
  intros Hwf Hs Hz Hd.
  pose proof (z2Dc_at_sample c i zi di Hwf (StronglySorted_chain _ _ Hs)
                Hz Hd) as Htab.
  unfold dVcdz, logdVcdz. rewrite Htab, !bind_Ok, where_zero, where_same.
  auto.
Qed.

(** ** The further properties at concrete inputs *)

Lemma extend_bounds_met_witness :
  exists fuel c' zl,
    extend fuel PLANCK_2018_seed NegInf NegInf (Fin 1.0) NegInf DEFAULT_DZ
    = Ok c'
    /\ last_item (self_z c') = Ok zl
    /\ met zl (Fin 1.0).
Proof.
  destruct planck_run_to_one as (fuel & c' & _ & Hrun & _).
  destruct (extend_bounds_met _ _ _ _ _ _ _ _ Hrun)
    as (zl & dl & vl & Hz & _ & _ & _ & _ & Hm & _).
  exists fuel, c', zl. auto.
Defined.

Lemma extend_keeps_parameters_witness :
  exists fuel c',
    extend fuel PLANCK_2018_seed NegInf NegInf (Fin 1.0) NegInf DEFAULT_DZ
    = Ok c'
    /\ same_parameters PLANCK_2018_seed c'.
Proof.
  destruct planck_run_to_one as (fuel & c' & _ & Hrun & _).
  exists fuel, c'. split; [exact Hrun|].
  apply (extend_keeps_parameters _ _ _ _ _ _ _ _ Hrun).
Defined.

Lemma extend_never_returns_witness :
  extend 5 PLANCK_2018_seed NegInf NegInf PosInf NegInf DEFAULT_DZ
  = OutOfFuel
  /\ extend 5 PLANCK_2018_seed NegInf NegInf (Fin 1.0) NegInf 0 = OutOfFuel.
Proof.
  split.
  - apply (extend_never_returns PLANCK_2018_seed 0.0); try planck.
    left; reflexivity.
  - apply (extend_never_returns PLANCK_2018_seed 0.0); try planck.
    right. split; [lra|]. exists 1.0. split; [reflexivity|lra].
Defined.

Lemma extend_resumes_witness :
  exists f1 f2 c1 c2,
    extend f1 PLANCK_2018_seed NegInf NegInf (Fin 1.0) NegInf DEFAULT_DZ
    = Ok c1
    /\ extend f2 c1 NegInf NegInf (Fin 2.0) NegInf DEFAULT_DZ = Ok c2
    /\ extend (f1 + f2) PLANCK_2018_seed NegInf NegInf (Fin 2.0) NegInf
         DEFAULT_DZ = Ok c2.
Proof.
  destruct planck_run_to_one as (f1 & c1 & zl & Hrun1 & Hwf1 & Hzl & Hr).
  destruct (extend_reaches_max_z c1 zl 2.0 DEFAULT_DZ Hwf1 Hzl)
    as (f2 & c2 & _ & Hrun2 & _);
    [unfold DEFAULT_DZ in *; lra | unfold DEFAULT_DZ; lra |].
  exists f1, f2, c1, c2. split; [exact Hrun1|]. split; [exact Hrun2|].
  apply (extend_resumes f1 f2 _ c1 c2 NegInf NegInf (Fin 1.0) NegInf);
    try exact I; try assumption.
  simpl. lra.
Defined.

Lemma extend_appends_grid_witness :
  exists fuel c' n,
    extend fuel PLANCK_2018_seed NegInf NegInf (Fin 1.0) NegInf DEFAULT_DZ
    = Ok c'
    /\ self_z c' = self_z PLANCK_2018_seed ++ grid 0.0 DEFAULT_DZ n.
Proof.
  destruct planck_run_to_one as (fuel & c' & _ & Hrun & _).
  destruct (extend_appends_grid _ _ _ _ _ _ _ _ 0.0 Hrun) as (n & Hg & _);
    [reflexivity|].
  exists fuel, c', n. auto.
Defined.

Lemma extend_max_z_returns_witness :
  exists fuel n c',
    extend fuel PLANCK_2018_seed NegInf NegInf (Fin DEFAULT_MAXZ) NegInf
      DEFAULT_DZ = Ok c'
    /\ self_z c' = self_z PLANCK_2018_seed ++ grid 0.0 DEFAULT_DZ n
    /\ (1 <= n)%nat
    /\ 0.0 + INR n * DEFAULT_DZ - DEFAULT_DZ < DEFAULT_MAXZ
       <= 0.0 + INR n * DEFAULT_DZ.
Proof.
  apply (extend_max_z_returns PLANCK_2018_seed 0.0); try planck.
  - unfold DEFAULT_MAXZ; lra.
  - unfold DEFAULT_DZ; lra.
Defined.

Lemma init_normalised_witness :
  z2E PLANCK_2018_seed 0 = 1
  /\ dDcdz PLANCK_2018_seed 0 false = C_CGS / PLANCK_2018_Ho
  /\ dDcdz PLANCK_2018_seed 0 true = C_CGS / PLANCK_2018_Ho / MPC_CGS.
Proof.
  apply (init_normalised PLANCK_2018_Ho PLANCK_2018_OmegaMatter
           PLANCK_2018_OmegaRadiation PLANCK_2018_OmegaLambda "mpc").
  exact PLANCK_2018_init.
Defined.

Lemma expansion_rate_bounds_witness :
  1 <= z2E PLANCK_2018_seed 0 <= z2E PLANCK_2018_seed 1
  /\ 0 < dDcdz PLANCK_2018_seed 1 false <= dDcdz PLANCK_2018_seed 0 false
  /\ dDcdz PLANCK_2018_seed 0 false <= C_CGS / self_Ho PLANCK_2018_seed.
Proof.
  apply (expansion_rate_bounds PLANCK_2018_seed 0 1).
  - exact planck_valid.
  - lra.
Defined.

Lemma distance_below_hubble_law_witness :
  exists fuel c zl,
    extend fuel PLANCK_2018_seed NegInf NegInf (Fin 1.0) NegInf DEFAULT_DZ
    = Ok c
    /\ last_item (self_z c) = Ok zl
    /\ 1.0 <= zl
    /\ Forall2 (fun z d => 0 <= d <= C_CGS / PLANCK_2018_Ho * z)
         (self_z c) (self_Dc c).
Proof.
  destruct planck_table_to_one as (fuel & c & zl & Hrun & Hg & Hzl & Hr).
  exists fuel, c, zl. split; [exact Hrun|]. split; [exact Hzl|].
  split; [exact Hr|].
  apply (distance_below_hubble_law PLANCK_2018_Ho PLANCK_2018_OmegaMatter
           PLANCK_2018_OmegaRadiation PLANCK_2018_OmegaLambda "mpc"
           PLANCK_2018_seed c); first [exact Hg | planck].
Defined.


Lemma queries_at_samples_witness :
  exists c,
    extend 2 (flat_model C_CGS 0 0 1 "cm") NegInf NegInf (Fin 2) NegInf 1
    = Ok c
    /\ self_z c = [0; 1; 2]
    /\ self_Dc c = [0; 1; 2]
    /\ z2Dc c 1 = Ok 1
    /\ z2DL c 1 = Ok (1 * (1 + 1) / self_unit_mod c)
    /\ z2Dc c 2 = Ok 2
    /\ z2DL c 2 = Ok (2 * (1 + 2) / self_unit_mod c).
Proof.
  destruct de_sitter_run as (c & Hrun & _ & Hwf & Hz & Hd & _).
  assert (Hs : StronglySorted Rlt (self_z c))
    by (rewrite Hz; repeat constructor; lra).
  destruct (queries_at_samples c 1 1 1 Hwf Hs) as [H1 H2];
    [rewrite Hz; reflexivity | rewrite Hd; reflexivity |].
  destruct (queries_at_samples c 2 2 2 Hwf Hs) as [H3 H4];
    [rewrite Hz; reflexivity | rewrite Hd; reflexivity |].
  exists c. auto 10.
Defined.

Lemma queries_within_table_witness :
  exists c,
    extend 2 (flat_model C_CGS 0 0 1 "cm") NegInf NegInf (Fin 2) NegInf 1
    = Ok c
    /\ self_z c = [0; 1; 2]
    /\ self_Dc c = [0; 1; 2]
    /\ (forall x, exists v, z2Dc c x = Ok v /\ 0 <= v <= 2)
    /\ (forall x, exists v,
          z2DL c x = Ok v /\ 0 <= v <= 2 * (1 + 2) / self_unit_mod c)
    /\ (forall d, exists v, DL2z c d = Ok v /\ 0 <= v <= 2).
Proof.
  destruct de_sitter_run as (c & Hrun & Hg & _ & Hz & Hd & _).
  exists c. split; [exact Hrun|]. split; [exact Hz|]. split; [exact Hd|].
  apply (queries_within_table C_CGS 0 0 1 "cm"
           (flat_model C_CGS 0 0 1 "cm") c 2 2);
    first [ exact Hg
          | rewrite Hz; reflexivity
          | rewrite Hd; reflexivity
          | de_sitter ].
Defined.

Lemma queries_monotone_witness :
  exists fuel c zl,
    extend fuel PLANCK_2018_seed NegInf NegInf (Fin 1.0) NegInf DEFAULT_DZ
    = Ok c
    /\ last_item (self_z c) = Ok zl
    /\ 1.0 <= zl
    /\ (exists v1 v2, z2Dc c 0.25 = Ok v1 /\ z2Dc c 0.75 = Ok v2
                      /\ v1 <= v2)
    /\ (exists v1 v2, z2DL c 0.25 = Ok v1 /\ z2DL c 0.75 = Ok v2
                      /\ v1 <= v2)
    /\ (exists v1 v2, DL2z c 0.25 = Ok v1 /\ DL2z c 0.75 = Ok v2
                      /\ v1 <= v2).
Proof.
  destruct planck_table_to_one as (fuel & c & zl & Hrun & Hg & Hzl & Hr).
  exists fuel, c, zl. split; [exact Hrun|]. split; [exact Hzl|].
  split; [exact Hr|].
  apply (queries_monotone PLANCK_2018_Ho PLANCK_2018_OmegaMatter
           PLANCK_2018_OmegaRadiation PLANCK_2018_OmegaLambda "mpc"
           PLANCK_2018_seed c 0.25 0.75); first [exact Hg | planck | lra].
Defined.

Lemma roundtrip_z_witness :
  exists c z,
    extend 2 (flat_model C_CGS 0 0 1 "cm") NegInf NegInf (Fin 2) NegInf 1
    = Ok c
    /\ self_z c = [0; 1; 2]
    /\ self_Dc c = [0; 1; 2]
    /\ DL2z c 3 = Ok z
    /\ z2DL c z = Ok 3.
Proof.
  destruct de_sitter_run as (c & Hrun & Hg & _ & Hz & Hd & Hu).
  destruct (roundtrip_z C_CGS 0 0 1 "cm" (flat_model C_CGS 0 0 1 "cm") c
              3 2 2) as (z & H1 & H2);
    first [ exact Hg
          | rewrite Hz; reflexivity
          | rewrite Hd; reflexivity
          | rewrite Hu; lra
          | de_sitter
          | idtac ].
  exists c, z. auto.
Defined.

Lemma DL_strictly_increasing_witness :
  exists c,
    extend 2 (flat_model C_CGS 0 0 1 "cm") NegInf NegInf (Fin 2) NegInf 1
    = Ok c
    /\ self_z c = [0; 1; 2]
    /\ self_Dc c = [0; 1; 2]
    /\ StronglySorted Rlt (DL c)
    /\ hd_error (DL c) = Some 0
    /\ length (DL c) = 3%nat
    /\ nth_error (DL c) 2 = Some (2 * (1 + 2)).
Proof.
  destruct de_sitter_run as (c & Hrun & Hg & _ & Hz & Hd & _).
  destruct (DL_strictly_increasing C_CGS 0 0 1 "cm"
              (flat_model C_CGS 0 0 1 "cm") c) as (H1 & H2 & H3 & H4);
    first [exact Hg | de_sitter | idtac].
  exists c. split; [exact Hrun|]. split; [exact Hz|]. split; [exact Hd|].
  split; [exact H1|]. split; [exact H2|].
  split; [rewrite H3, Hz; reflexivity|].
  apply H4; [rewrite Hz | rewrite Hd]; reflexivity.
Defined.

Lemma distance_and_volume_strictly_increase_witness :
  exists fuel c,
    extend fuel PLANCK_2018_seed NegInf NegInf (Fin 1.0) NegInf DEFAULT_DZ
    = Ok c
    /\ StronglySorted Rlt (self_Dc c) /\ StronglySorted Rlt (self_Vc c).
Proof.
  destruct planck_run_to_one as (fuel & c & _ & Hrun & _).
  exists fuel, c. split; [exact Hrun|].
  apply (distance_and_volume_strictly_increase PLANCK_2018_Ho
           PLANCK_2018_OmegaMatter PLANCK_2018_OmegaRadiation
           PLANCK_2018_OmegaLambda "mpc" PLANCK_2018_seed c); try planck.
  eapply grown_extend; [apply grown_start | | exact Hrun].
  unfold DEFAULT_DZ; lra.
Defined.

Lemma volume_element_at_samples_witness :
  exists c,
    extend 2 (flat_model C_CGS 0 0 1 "cm") NegInf NegInf (Fin 2) NegInf 1
    = Ok c
    /\ self_z c = [0; 1; 2]
    /\ self_Dc c = [0; 1; 2]
    /\ dVcdz c 1 0 = Ok (4 * PI * 1 ^ 2 * dDcdz c 1 false)
    /\ dVcdz c 1 1 = dVcdz c 1 0
    /\ logdVcdz c 1 1 = logdVcdz c 1 0.
Proof.
  destruct de_sitter_run as (c & Hrun & _ & Hwf & Hz & Hd & _).
  assert (Hs : StronglySorted Rlt (self_z c))
    by (rewrite Hz; repeat constructor; lra).
  exists c. split; [exact Hrun|]. split; [exact Hz|]. split; [exact Hd|].
  apply (volume_element_at_samples c 1 1 1 Hwf Hs);
    [rewrite Hz | rewrite Hd]; reflexivity.
Defined.

(** ** Reaching a luminosity distance *)

Lemma met_mono (x y : R) (b : ext_real) : met x b -> x <= y -> met y b.
Proof. destruct b; simpl; intros; auto; lra. Qed.

Lemma met_eventually (b : ext_real) :
  b <> PosInf -> exists A, forall x, A <= x -> met x b.
Proof.
  destruct b as [|r|]; intros Hb.
  - exists 0. intros; exact I.
  - exists r. intros x Hx. exact Hx.
  - congruence.
Qed.

Lemma extend_loop_reaches_DL (max_DL max_z : ext_real) (D0 dz : R) :
  0 < dz -> 0 < D0 ->
  forall n st,
    monotone_invariant st ->
    ls_DL st = ls_Dc st * (1 + ls_z st) ->
    D0 <= ls_Dc st ->
    met (ls_z st + INR n * dz) max_z ->
    met (D0 * (1 + (ls_z st + INR n * dz))) max_DL ->
    exists fuel c',
      extend_loop fuel max_DL NegInf max_z NegInf dz st = Ok c'.
Proof.
  intros Hdz HD0. induction n as [|n IH]; intros st Hinv HDL HD Hz HL.
  - exists 0%nat, (ls_self st). apply extend_loop_stop.
    destruct Hinv as [(Hlz & _) ((_ & _ & _ & _ & _ & Hzlast) & _)].
    specialize (Hzlast _ Hlz).
    simpl INR in Hz, HL. rewrite Rmult_0_l, Rplus_0_r in Hz, HL.
    unfold extend_cond. cbn [less].
    rewrite (proj2 (less_false_met _ _) Hz).
    rewrite (proj2 (less_false_met (ls_DL st) max_DL)); [reflexivity|].
    apply (met_mono _ _ _ HL). rewrite HDL. nra.
  - destruct (extend_cond max_DL NegInf max_z NegInf st) eqn:Hc.
    + pose proof Hinv as [_ ((Hwf & _) & _)].
      destruct (body_well_formed dz st Hwf) as (st' & Hb & _ & _ & Hz').
      pose proof (body_monotone dz st st' Hdz Hinv Hb) as Hinv'.
      destruct (body_coherent dz st st' Hb) as (_ & HDL' & _).
      destruct (extend_body_inv dz st st' Hb) as (_ & _ & HDc).
      destruct Hinv as [(Hlz & _) ((_ & _ & _ & _ & _ & Hzlast) & Hval & _)].
      specialize (Hzlast _ Hlz).
      pose proof (dDcdz_pos _ (ls_z st) Hval Hzlast).
      pose proof (dDcdz_pos _ (ls_z st + dz) Hval ltac:(lra)).
      assert (HD' : D0 <= ls_Dc st').
      { rewrite HDc.
        assert (0 < 0.5 * (dDcdz (ls_self st) (ls_z st) false
                           + dDcdz (ls_self st) (ls_z st + dz) false) * dz)
          by (apply Rmult_lt_0_compat; lra).
        lra. }
      assert (E : ls_z st' + INR n * dz = ls_z st + INR (S n) * dz)
        by (rewrite Hz', S_INR; ring).
      destruct (IH st' Hinv' HDL' HD') as (fuel & c' & Hrun).
      * rewrite E. exact Hz.
      * rewrite E. exact HL.
      * exists (S fuel), c'.
        rewrite (extend_loop_pass _ _ _ _ _ _ st st' Hc Hb). exact Hrun.
    + exists 0%nat, (ls_self st). apply extend_loop_stop. exact Hc.
Qed.

(** X18.  For valid parameters, on a table grown with positive steps,
    [extend] with a finite (or absent) [max_DL] and a finite (or absent)
    [max_z], the other two bounds absent, and a positive step always
    returns: the luminosity distance grows without bound along the
    integration. *)
Theorem extend_max_DL_returns (Ho Om Or OL : R) (u : string)
    (c0 c : Cosmology) (max_DL max_z : ext_real) (dz : R) :
  0 < Ho -> 0 <= Om -> 0 <= Or -> 0 <= OL -> Om + Or + OL = 1 ->
  __init__ Ho Om Or OL u = Ok c0 ->
  grown c0 c ->
  max_DL <> PosInf -> max_z <> PosInf -> 0 < dz ->
  exists fuel c', extend fuel c max_DL NegInf max_z NegInf dz = Ok c'.
Proof.
  intros HHo Hm Hr Hl Hsum Hinit Hg HbDL Hbz Hdz.
  pose proof (grown_table_monotone _ _ _ _ _ _ _ HHo Hm Hr Hl Hsum Hinit Hg)
    as Hmono.
  pose proof Hmono as ((Hwf & _ & _ & _ & _ & Hzlast) & Hval & _ & _ & Hdlast).
  pose proof Hwf as (Hne & Hl1 & Hl2).
  destruct (last_item_cons (self_z c) Hne) as [zl Hzl].
  destruct (last_item_cons (self_Dc c)) as [dl Hdl].
  { intros E. rewrite E in Hl1. destruct (self_z c); [congruence|discriminate]. }
  destruct (last_item_cons (self_Vc c)) as [vl Hvl].
  { intros E. rewrite E in Hl2. destruct (self_Dc c); discriminate. }
  specialize (Hzlast _ Hzl). specialize (Hdlast _ Hdl).
  set (st := mkLoop c zl (dl * (1 + zl)) dl vl).
  assert (Hext : forall fuel,
             extend fuel c max_DL NegInf max_z NegInf dz
             = extend_loop fuel max_DL NegInf max_z NegInf dz st).
  { intros fuel. unfold extend. rewrite Hzl, Hdl, Hvl, !bind_Ok.
    reflexivity. }
  assert (Hinv : monotone_invariant st)
    by (split; [unfold coherent; simpl; auto|exact Hmono]).
  destruct (extend_cond max_DL NegInf max_z NegInf st) eqn:Hc;
    [|exists 0%nat, c; rewrite Hext;
      apply (extend_loop_stop 0 _ _ _ _ dz st Hc)].
  destruct (body_well_formed dz st Hwf) as (st' & Hb & _ & _ & Hz').
  pose proof (body_monotone dz st st' Hdz Hinv Hb) as Hinv'.
  destruct (body_coherent dz st st' Hb) as (_ & HDL' & _).
  destruct (extend_body_inv dz st st' Hb) as (_ & _ & HDc).
  assert (HD' : 0 < ls_Dc st').
  { rewrite HDc. cbn [st ls_self ls_z ls_Dc].
    pose proof (dDcdz_pos _ zl Hval Hzlast).
    pose proof (dDcdz_pos _ (zl + dz) Hval ltac:(lra)).
    assert (0 < 0.5 * (dDcdz c zl false + dDcdz c (zl + dz) false) * dz)
      by (apply Rmult_lt_0_compat; lra).
    lra. }
  destruct (met_eventually max_z Hbz) as [Az HAz].
  destruct (met_eventually max_DL HbDL) as [AL HAL].
  destruct (INR_archimed dz (Rmax (Az - ls_z st')
                               (AL / ls_Dc st' - 1 - ls_z st')) Hdz)
    as [n Hn].
  pose proof (Rmax_l (Az - ls_z st') (AL / ls_Dc st' - 1 - ls_z st')).
  pose proof (Rmax_r (Az - ls_z st') (AL / ls_Dc st' - 1 - ls_z st')).
  destruct (extend_loop_reaches_DL max_DL max_z (ls_Dc st') dz Hdz HD' n st'
              Hinv' HDL' ltac:(lra)) as (fuel & c' & Hrun).
  - apply HAz. lra.
  - apply HAL.
    assert (E : AL = ls_Dc st' * (AL / ls_Dc st')) by (field; lra).
    rewrite E at 1. apply Rmult_le_compat_l; lra.
  - exists (S fuel), c'. rewrite Hext.
    rewrite (extend_loop_pass _ _ _ _ _ _ st st' Hc Hb). exact Hrun.
Qed.

Lemma extend_max_DL_returns_witness :
  exists fuel c',
    extend fuel PLANCK_2018_seed (Fin (1000 * MPC_CGS)) NegInf NegInf NegInf
      DEFAULT_DZ = Ok c'.
Proof.
  apply (extend_max_DL_returns PLANCK_2018_Ho PLANCK_2018_OmegaMatter
           PLANCK_2018_OmegaRadiation PLANCK_2018_OmegaLambda "mpc"
           PLANCK_2018_seed PLANCK_2018_seed); try planck;
    try discriminate.
  unfold DEFAULT_DZ; lra.
Defined.

(** * The table on binary64 numbers *)


(** The call made when the module is loaded, [extend(max_z=2.5)] with the
    default step, on binary64 numbers: after 2500 passes the rounded
    redshift is still below 2.5, the loop makes 2501 passes and the last
    redshift is 2.5009999999998356. *)
Example default_table_on_doubles :
  (c <- Double.PLANCK_2018_Cosmology 2501 ;;
   Ok (length (Double.self_z c), Double.last_item (Double.self_z c),
       Double.increasing (Double.self_z c)))
  = Ok (2502%nat, Ok 2.5009999999998356%float, true)
  /\ Double.PLANCK_2018_Cosmology 2500 = OutOfFuel.
Proof. split; vm_compute; reflexivity. Qed.
